(** * Agentic Motion Studio: rendering pipeline and encoder orchestrator

    Shallow embedding of [src/webapp/src/app/page.tsx].

    Modelling conventions:
    - JavaScript numbers are modelled as exact rationals [Q]; [Math.round x]
      is [floor (x + 1/2)], [Math.max]/[Math.min] are [Qmax]/[Qmin] (or
      [Z.max] on integer-valued results).  Floating-point rounding error is
      not modelled.
    - [Math.sin], [Math.cos], [Math.PI] and the canvas text metric
      [measureText] are host capabilities; they are section variables, so
      every result holds for any implementation of them.
    - The 2D canvas is a display list: a drawing state (transform, fill
      style, alpha, font, baseline), the save/restore stack, the current
      path and the list of painting commands issued so far.  A surface's
      pixels are determined by its size and its painted list.
    - The encoder's working storage is the list of file names it holds. *)

From Stdlib Require Import List String Ascii Bool ZArith QArith Qround Qminmax Lia Lqa Sorted.
Import ListNotations.
Open Scope string_scope.

(* ------------------------------------------------------------------ *)
(** ** Constants and numeric helpers *)

Definition CANVAS_WIDTH : Q := 1280.
Definition CANVAS_HEIGHT : Q := 720.
Definition FPS : Z := 24.

Definition MAX_SCENES : nat := 6.
Definition MIN_DURATION : Q := 2.
Definition MAX_DURATION : Q := 8.

(** [Math.round]: round half up. *)
Definition Math_round (x : Q) : Z := Qfloor (x + (1 # 2)).

(** [clamp(value, min, max) = Math.min(Math.max(value, min), max)]. *)
Definition clamp (value min max : Q) : Q := Qmin (Qmax value min) max.

Definition Qgtb (x y : Q) : bool := negb (Qle_bool x y).
Definition Qltb (x y : Q) : bool := negb (Qle_bool y x).
Definition Qgeb (x y : Q) : bool := Qle_bool y x.

(** The double-quote character, used to build error messages. *)
Definition dq : string := String "034"%char EmptyString.

(* ------------------------------------------------------------------ *)
(** ** Data model *)

Inductive SceneAnimation := zoom | slide | drift.

Definition SceneAnimation_eqb (a b : SceneAnimation) : bool :=
  match a, b with
  | zoom, zoom | slide, slide | drift, drift => true
  | _, _ => false
  end.

(** [type Scene]; [id] comes from [nanoid()], modelled as a fresh counter. *)
Record Scene := mkScene {
  id : nat;
  title : string;
  description : string;
  duration : Q;
  gradientId : string;
  textColor : string;
  accent : string;
  animation : SceneAnimation
}.

(** [GradientSpec] of [@/lib/palette]: id, label, angle and stops. *)
Record GradientSpec := mkGradient {
  gid : string;
  label : string;
  angle : Q;
  stops : list (Q * string)
}.

Inductive Stage := loading | frames | muxing.

(* ------------------------------------------------------------------ *)
(** ** Canvas model *)

Inductive Transform :=
| Translate (x y : Q)
| ScaleT (x y : Q)
| Rotate (a : Q).

(** Fill styles: a colour string or a gradient object with its stops. *)
Inductive Paint :=
| PColor (c : string)
| PLinear (x0 y0 x1 y1 : Q) (colorStops : list (Q * string))
| PRadial (x0 y0 r0 x1 y1 r1 : Q) (colorStops : list (Q * string)).

Record DrawState := mkDrawState {
  ctm : list Transform;
  fillStyle : Paint;
  globalAlpha : Q;
  font : string;
  textBaseline : string
}.

(** Initial drawing state of a fresh 2D context. *)
Definition defaultDrawState : DrawState :=
  mkDrawState [] (PColor "#000000") 1 "10px sans-serif" "alphabetic".

Inductive Seg :=
| MoveTo (x y : Q)
| LineTo (x y : Q)
| QuadTo (cx cy x y : Q)
| ClosePath.

(** Painting commands, recorded with the drawing state they use. *)
Inductive DrawOp :=
| FillRect (st : DrawState) (x y w h : Q)
| FillPath (st : DrawState) (path : list Seg)
| FillText (st : DrawState) (text : string) (x y : Q).

Record Ctx := mkCtx {
  cwidth : Q;
  cheight : Q;
  cstate : DrawState;
  cstack : list DrawState;
  cpath : list Seg;
  painted : list DrawOp
}.

(** A freshly created canvas of the given size. *)
Definition freshCtx (w h : Q) : Ctx := mkCtx w h defaultDrawState [] [] [].

Definition set_state (c : Ctx) (st : DrawState) : Ctx :=
  mkCtx (cwidth c) (cheight c) st (cstack c) (cpath c) (painted c).

Definition set_path (c : Ctx) (p : list Seg) : Ctx :=
  mkCtx (cwidth c) (cheight c) (cstate c) (cstack c) p (painted c).

Definition paint (c : Ctx) (op : DrawOp) : Ctx :=
  mkCtx (cwidth c) (cheight c) (cstate c) (cstack c) (cpath c)
    (painted c ++ [op]).

Definition save (c : Ctx) : Ctx :=
  mkCtx (cwidth c) (cheight c) (cstate c) (cstate c :: cstack c)
    (cpath c) (painted c).

Definition restore (c : Ctx) : Ctx :=
  match cstack c with
  | [] => c
  | st :: rest => mkCtx (cwidth c) (cheight c) st rest (cpath c) (painted c)
  end.

Definition transform (c : Ctx) (t : Transform) : Ctx :=
  let st := cstate c in
  set_state c (mkDrawState (ctm st ++ [t]) (fillStyle st) (globalAlpha st)
                 (font st) (textBaseline st)).

Definition translate (c : Ctx) (x y : Q) : Ctx := transform c (Translate x y).
Definition scale (c : Ctx) (x y : Q) : Ctx := transform c (ScaleT x y).
Definition rotate (c : Ctx) (a : Q) : Ctx := transform c (Rotate a).

Definition set_fillStyle (c : Ctx) (p : Paint) : Ctx :=
  let st := cstate c in
  set_state c (mkDrawState (ctm st) p (globalAlpha st) (font st)
                 (textBaseline st)).

Definition set_globalAlpha (c : Ctx) (a : Q) : Ctx :=
  let st := cstate c in
  set_state c (mkDrawState (ctm st) (fillStyle st) a (font st)
                 (textBaseline st)).

Definition set_font (c : Ctx) (f : string) : Ctx :=
  let st := cstate c in
  set_state c (mkDrawState (ctm st) (fillStyle st) (globalAlpha st) f
                 (textBaseline st)).

Definition set_textBaseline (c : Ctx) (b : string) : Ctx :=
  let st := cstate c in
  set_state c (mkDrawState (ctm st) (fillStyle st) (globalAlpha st)
                 (font st) b).

Definition fillRect (c : Ctx) (x y w h : Q) : Ctx :=
  paint c (FillRect (cstate c) x y w h).

Definition beginPath (c : Ctx) : Ctx := set_path c [].
Definition moveTo (c : Ctx) (x y : Q) : Ctx := set_path c (cpath c ++ [MoveTo x y]).
Definition lineTo (c : Ctx) (x y : Q) : Ctx := set_path c (cpath c ++ [LineTo x y]).
Definition quadraticCurveTo (c : Ctx) (cx cy x y : Q) : Ctx :=
  set_path c (cpath c ++ [QuadTo cx cy x y]).
Definition closePath (c : Ctx) : Ctx := set_path c (cpath c ++ [ClosePath]).
Definition fill (c : Ctx) : Ctx := paint c (FillPath (cstate c) (cpath c)).

Definition fillText (c : Ctx) (text : string) (x y : Q) : Ctx :=
  paint c (FillText (cstate c) text x y).

(** [gradient.addColorStop]: the gradient object is not shared before it is
    installed as fill style, so it is built as a value. *)
Definition addColorStop (g : Paint) (at_ : Q) (color : string) : Paint :=
  match g with
  | PColor _ => g
  | PLinear x0 y0 x1 y1 s => PLinear x0 y0 x1 y1 (s ++ [(at_, color)])
  | PRadial x0 y0 r0 x1 y1 r1 s => PRadial x0 y0 r0 x1 y1 r1 (s ++ [(at_, color)])
  end.

(** [text.split(" ")]. *)
Fixpoint split_space (s : string) : list string :=
  match s with
  | EmptyString => [EmptyString]
  | String ch rest =>
      let parts := split_space rest in
      if Ascii.eqb ch " "%char then EmptyString :: parts
      else match parts with
           | p :: ps => String ch p :: ps
           | [] => [String ch EmptyString]
           end
  end.

Definition is_empty (s : string) : bool :=
  match s with EmptyString => true | _ => false end.

(** [fontStyles]. *)
Definition fontStyles_title : string := "700 64px 'Sora', 'Inter', sans-serif".
Definition fontStyles_description : string := "400 30px 'Inter', system-ui, sans-serif".

(** [easeInOut], [easeOut], [easeIn]; [Math.pow(x, 3)] is [x * x * x]. *)
Definition easeInOut (value : Q) : Q :=
  if Qltb value (1 # 2) then 4 * value * value * value
  else 1 - ((-2 * value + 2) * (-2 * value + 2) * (-2 * value + 2)) / 2.

Definition easeOut (value : Q) : Q := 1 - (1 - value) * (1 - value) * (1 - value).

Definition easeIn (value : Q) : Q := value * value.

(* ------------------------------------------------------------------ *)
(** ** A concrete host, used to run the program on sample inputs *)

Definition ex_sin (x : Q) : Q := 0.
Definition ex_cos (x : Q) : Q := 1.
Definition ex_pi : Q := 355 # 113.
(** Every character 30 units wide, whatever the font. *)
Definition ex_measure (font text : string) : Q := inject_Z (Z.of_nat (String.length text) * 30).
Definition ex_gradients : list GradientSpec :=
  [mkGradient "aurora" "Aurora" 135 [(0, "#0f172a"); (1, "#312e81")]].

(* ------------------------------------------------------------------ *)
(** ** Frame renderer *)

Section Program.

(** Host numerics and text metrics. *)
Variable Math_sin Math_cos : Q -> Q.
Variable Math_PI : Q.
(** [context.measureText(text).width] under the given font. *)
Variable measureText : string -> string -> Q.
(** The gradient registry [GRADIENTS] of [@/lib/palette]. *)
Variable GRADIENTS : list GradientSpec.

(** [wrapText]: greedy word wrap using the context's current font. *)
Definition wrapText (c : Ctx) (text : string) (maxWidth : Q) : list string :=
  let words := split_space text in
  let '(lines, currentLine) :=
    fold_left
      (fun '(lines, currentLine) word =>
         let testLine :=
           if negb (is_empty currentLine) then currentLine ++ " " ++ word
           else word in
         let metrics_width := measureText (font (cstate c)) testLine in
         if Qgtb metrics_width maxWidth && negb (is_empty currentLine) then
           (app lines [currentLine], word)
         else (lines, testLine))
      words ([], "") in
  if negb (is_empty currentLine) then app lines [currentLine] else lines.

(** Modelled from the spec: [drawGradient] of [@/lib/palette] (not in the
    sources): paint the full frame with a linear gradient along the
    gradient's angle, with its stops in order. *)
Definition drawGradient (c : Ctx) (width height : Q) (g : GradientSpec) : Ctx :=
  let rad := angle g * Math_PI / 180 in
  let dx := Math_cos rad * width / 2 in
  let dy := Math_sin rad * height / 2 in
  let lg := fold_left (fun acc '(at_, color) => addColorStop acc at_ color)
              (stops g)
              (PLinear (width / 2 - dx) (height / 2 - dy)
                 (width / 2 + dx) (height / 2 + dy) []) in
  let c := set_fillStyle c lg in
  fillRect c 0 0 width height.

Definition drawMist (c : Ctx) : Ctx :=
  let gradient := PRadial (CANVAS_WIDTH * (3 # 10)) (CANVAS_HEIGHT * (2 # 10)) 0
                    (CANVAS_WIDTH * (4 # 10)) (CANVAS_HEIGHT * (3 # 10))
                    (CANVAS_WIDTH * (8 # 10)) [] in
  let gradient := addColorStop gradient 0 "rgba(255,255,255,0.18)" in
  let gradient := addColorStop gradient 1 "rgba(255,255,255,0)" in
  let c := set_fillStyle c gradient in
  fillRect c 0 0 CANVAS_WIDTH CANVAS_HEIGHT.

Definition roundedRect (c : Ctx) (x y width height radius : Q) : Ctx :=
  let c := beginPath c in
  let c := moveTo c (x + radius) y in
  let c := lineTo c (x + width - radius) y in
  let c := quadraticCurveTo c (x + width) y (x + width) (y + radius) in
  let c := lineTo c (x + width) (y + height - radius) in
  let c := quadraticCurveTo c (x + width) (y + height) (x + width - radius)
             (y + height) in
  let c := lineTo c (x + radius) (y + height) in
  let c := quadraticCurveTo c x (y + height) x (y + height - radius) in
  let c := lineTo c x (y + radius) in
  let c := quadraticCurveTo c x y (x + radius) y in
  closePath c.

Definition drawAccent (c : Ctx) (accent : string) (progress : Q)
    (animation : SceneAnimation) : Ctx :=
  let eased := easeInOut progress in
  let baseOpacity := (35 # 100) + (15 # 100) * Math_sin (progress * Math_PI) in
  let c := save c in
  let c := translate c (CANVAS_WIDTH / 2) (CANVAS_HEIGHT / 2) in
  let scale_ :=
    if SceneAnimation_eqb animation zoom then 1 + eased * (8 # 100)
    else if SceneAnimation_eqb animation slide
    then (105 # 100) + Math_sin (progress * Math_PI) * (5 # 100)
    else 1 + Math_cos (progress * Math_PI * 2) * (4 # 100) in
  let c := scale c scale_ scale_ in
  let rotation :=
    if SceneAnimation_eqb animation slide then (easeOut progress - (1 # 2)) * (4 # 10)
    else if SceneAnimation_eqb animation drift
    then Math_sin (progress * Math_PI * 2) * (2 # 10)
    else easeInOut progress * (15 # 100) in
  let c := rotate c rotation in
  let rectWidth := CANVAS_WIDTH * (65 # 100) in
  let rectHeight := CANVAS_HEIGHT * (65 # 100) in
  let gradient := PLinear (- rectWidth / 2) (- rectHeight / 2)
                    (rectWidth / 2) (rectHeight / 2) [] in
  let gradient := addColorStop gradient 0 (accent ++ "30") in
  let gradient := addColorStop gradient 1 (accent ++ "00") in
  let c := set_fillStyle c gradient in
  let c := set_globalAlpha c baseOpacity in
  let c := roundedRect c (- rectWidth / 2) (- rectHeight / 2)
             rectWidth rectHeight 48 in
  let c := fill c in
  restore c.

(** [lines.forEach(line => { fillText(line, 0, currentY); currentY += step })]. *)
Definition fillLines (c : Ctx) (lines : list string) (currentY step : Q) : Ctx * Q :=
  fold_left (fun '(c, y) line => (fillText c line 0 y, y + step))
    lines (c, currentY).

Definition drawTextBlock (c : Ctx) (scene : Scene) (progress : Q) : Ctx :=
  let padding : Q := 120 in
  let textWidth := CANVAS_WIDTH - padding * 2 in
  let c := save c in
  let c := translate c padding padding in
  let offset :=
    if SceneAnimation_eqb (animation scene) slide then (1 - easeOut progress) * 80
    else if SceneAnimation_eqb (animation scene) drift
    then Math_sin (progress * Math_PI * 2) * 20
    else (1 - easeOut progress) * 40 in
  let c := translate c 0 offset in
  let c := set_globalAlpha c (easeIn progress) in
  let c := set_fillStyle c (PColor (textColor scene)) in
  let c := set_font c fontStyles_title in
  let c := set_textBaseline c "top" in
  let titleLines := wrapText c (title scene) textWidth in
  let '(c, currentY) := fillLines c titleLines 0 70 in
  let c := set_globalAlpha c (easeIn progress * (9 # 10)) in
  let c := set_font c fontStyles_description in
  let bodyLines := wrapText c (description scene) textWidth in
  let currentY := currentY + 20 in
  let '(c, _) := fillLines c bodyLines currentY 44 in
  restore c.

(** [GRADIENTS.find((entry) => entry.id === scene.gradientId)]. *)
Definition findGradient (gradientId : string) : option GradientSpec :=
  find (fun entry => String.eqb (gid entry) gradientId) GRADIENTS.

Inductive Res (A : Type) := Ok (a : A) | Throw (msg : string).
#[global] Arguments Ok {A} a.
#[global] Arguments Throw {A} msg.

(** [renderSceneFrame]: returns the outcome and the context as left by the
    call (the context is kept on failure too). *)
Definition renderSceneFrame (c : Ctx) (scene : Scene) (progress : Q) : Res unit * Ctx :=
  match findGradient (gradientId scene) with
  | None => (Throw ("Missing gradient " ++ dq ++ gradientId scene ++ dq ++ "."), c)
  | Some gradient =>
      let c := save c in
      let c := drawGradient c CANVAS_WIDTH CANVAS_HEIGHT gradient in
      let c := drawMist c in
      let c := drawAccent c (accent scene) progress (animation scene) in
      let c := drawTextBlock c scene progress in
      (Ok tt, restore c)
  end.


(* ------------------------------------------------------------------ *)
(** ** Timeline model and preview *)

(** [totalDurationForScenes]: [scenes.reduce((total, s) => total + s.duration, 0)]. *)
Definition totalDurationForScenes (scenes : list Scene) : Q :=
  fold_left (fun total scene => total + duration scene) scenes 0.

(** The loop of [renderPreviewFrame] from accumulated time [elapsed];
    [fallback] is [scenes[scenes.length - 1]]. *)
Fixpoint previewLoop (c : Ctx) (fallback : Scene) (time elapsed : Q)
    (rest : list Scene) : Res unit * Ctx :=
  match rest with
  | [] => renderSceneFrame c fallback 1
  | scene :: rest' =>
      let start := elapsed in
      let end_ := start + duration scene in
      if Qgeb time start && Qltb time end_ then
        renderSceneFrame c scene ((time - start) / duration scene)
      else previewLoop c fallback time end_ rest'
  end.

Definition renderPreviewFrame (c : Ctx) (scenes : list Scene) (time : Q) : Res unit * Ctx :=
  let totalDuration := totalDurationForScenes scenes in
  if Qeq_bool totalDuration 0 then (Ok tt, c)
  else match scenes with
       | [] => (Ok tt, c)
       | s0 :: _ => previewLoop c (last scenes s0) time 0 scenes
       end.

(* ------------------------------------------------------------------ *)
(** ** Encoder orchestrator *)

Inductive Event :=
| OnStage (stage : Stage) (progress : Q)
| EncoderLoaded
| RenderedFrame (scene : Scene) (progress : Q)
| WroteFile (name : string)
| Executed (argv : list string)
| ReadBack (name : string)
| DeletedFile (name : string).

(** Encoder working storage (names of the files it holds), the trace of
    observable effects, and the offscreen canvas. *)
Record World := mkWorld {
  storage : list string;
  trace : list Event;
  canvas : Ctx
}.

(** Behaviour of the browser environment and of the encoder capability. *)
Record Env := mkEnv {
  getFFmpeg_ok : bool;
  context2d_ok : bool;
  atob_ok : bool;
  writeFile_ok : string -> bool;
  exec_ok : bool;
  readFile_uint8 : bool;
  deleteFile_ok : string -> bool
}.

Definition M (A : Type) : Type := World -> Res A * World.

Definition ret {A} (a : A) : M A := fun w => (Ok a, w).
Definition throw {A} (msg : string) : M A := fun w => (Throw msg, w).
Definition bind {A B} (m : M A) (k : A -> M B) : M B :=
  fun w => match m w with
           | (Ok a, w') => k a w'
           | (Throw e, w') => (Throw e, w')
           end.

Notation "'let*' x ':=' m 'in' k" := (bind m (fun x => k))
  (at level 200, x name, m at level 100, k at level 200).
Notation "'let*' ' p ':=' m 'in' k" := (bind m (fun p => k))
  (at level 200, p pattern, m at level 100, k at level 200).

Definition emit (e : Event) : M unit :=
  fun w => (Ok tt, mkWorld (storage w) (app (trace w) [e]) (canvas w)).

Definition onStage (stage : Stage) (progress : Q) : M unit := emit (OnStage stage progress).

(** [try { m } catch { /* ignore */ }]. *)
Definition ignore (m : M unit) : M unit :=
  fun w => match m w with (_, w') => (Ok tt, w') end.

(** [try { m } finally { fin }]: [fin] runs on both outcomes; its own
    failure would replace the outcome of [m]. *)
Definition try_finally {A} (m : M A) (fin : M unit) : M A :=
  fun w => match m w with
           | (r, w1) => match fin w1 with
                        | (Ok _, w2) => (r, w2)
                        | (Throw e, w2) => (Throw e, w2)
                        end
           end.

(** [getFFmpeg()] of [@/lib/ffmpeg]. *)
Definition getFFmpeg (env : Env) : M unit :=
  if getFFmpeg_ok env then emit EncoderLoaded
  else throw "Failed to load the encoder.".

Definition loadEncoder (env : Env) : M unit :=
  let* _ := onStage loading (1 # 10) in
  let* _ := getFFmpeg env in
  onStage loading 1.

(** [document.createElement("canvas")] with [width = 1280], [height = 720]. *)
Definition createCanvas : M unit :=
  fun w => (Ok tt, mkWorld (storage w) (trace w) (freshCtx CANVAS_WIDTH CANVAS_HEIGHT)).

Definition getContext (env : Env) : M unit :=
  if context2d_ok env then ret tt
  else throw "Unable to access 2D context for rendering.".

Definition renderFrame (scene : Scene) (progress : Q) : M unit :=
  fun w => match renderSceneFrame (canvas w) scene progress with
           | (Ok tt, c') =>
               (Ok tt, mkWorld (storage w) (app (trace w) [RenderedFrame scene progress]) c')
           | (Throw e, c') => (Throw e, mkWorld (storage w) (trace w) c')
           end.

(** [canvasToUint8]: the PNG bytes of the canvas, modelled by its display list. *)
Definition canvasToUint8 (env : Env) : M (list DrawOp) :=
  fun w => if atob_ok env then (Ok (painted (canvas w)), w)
           else (Throw "Base64 decoding is not available in this environment.", w).

Definition add_name (name : string) (s : list string) : list string :=
  if existsb (String.eqb name) s then s else app s [name].

Definition remove_name (name : string) (s : list string) : list string :=
  filter (fun n => negb (String.eqb n name)) s.

Definition writeFile (env : Env) (name : string) (bytes : list DrawOp) : M unit :=
  fun w => if writeFile_ok env name
           then (Ok tt, mkWorld (add_name name (storage w))
                          (app (trace w) [WroteFile name]) (canvas w))
           else (Throw "writeFile failed", w).

Definition exec (env : Env) (argv : list string) : M unit :=
  fun w => let w := mkWorld (storage w) (app (trace w) [Executed argv]) (canvas w) in
           if exec_ok env
           then (Ok tt, mkWorld (add_name "output.mp4" (storage w)) (trace w) (canvas w))
           else (Throw "exec failed", w).

(** Result of [ffmpeg.readFile]: a [Uint8Array] or a string. *)
Inductive FileData := Uint8Array | TextData.

Definition readFile (env : Env) (name : string) : M FileData :=
  fun w => if existsb (String.eqb name) (storage w)
           then (Ok (if readFile_uint8 env then Uint8Array else TextData),
                 mkWorld (storage w) (app (trace w) [ReadBack name]) (canvas w))
           else (Throw "readFile failed", w).

Definition deleteFile (env : Env) (name : string) : M unit :=
  fun w => if deleteFile_ok env name && existsb (String.eqb name) (storage w)
           then (Ok tt, mkWorld (remove_name name (storage w))
                          (app (trace w) [DeletedFile name]) (canvas w))
           else (Throw "deleteFile failed", w).

Fixpoint forEach_ (files : list string) (f : string -> M unit) : M unit :=
  match files with
  | [] => ret tt
  | file :: rest => let* _ := f file in forEach_ rest f
  end.

Definition cleanupFfmpeg (env : Env) (files : list string) : M unit :=
  let* _ := forEach_ files (fun file => ignore (deleteFile env file)) in
  ignore (deleteFile env "output.mp4").

(** [String(n)] for a non-negative integer. *)
Fixpoint string_of_nat_aux (fuel n : nat) (acc : string) : string :=
  match fuel with
  | O => acc
  | S fuel' =>
      let acc' := String (ascii_of_nat (48 + n mod 10)) acc in
      if Nat.ltb n 10 then acc' else string_of_nat_aux fuel' (n / 10) acc'
  end.

Definition String_of_nat (n : nat) : string := string_of_nat_aux (S n) n "".

Fixpoint repeat_string (n : nat) (s : string) : string :=
  match n with O => "" | S n' => s ++ repeat_string n' s end.

(** [s.padStart(n, fill)] for a one-character [fill]. *)
Definition padStart (s : string) (n : nat) (fill : string) : string :=
  if Nat.leb n (String.length s) then s
  else repeat_string (n - String.length s) fill ++ s.

Definition frameName (frameIndex : nat) : string :=
  "frame_" ++ padStart (String_of_nat frameIndex) 5 "0" ++ ".png".

Definition framesForScene (scene : Scene) : Z :=
  Z.max 1 (Math_round (duration scene * inject_Z FPS)).

Definition totalFramesFor (scenes : list Scene) : Z :=
  Z.max 1 (Math_round (totalDurationForScenes scenes * inject_Z FPS)).

Definition frameProgress (framesForScene : Z) (frame : nat) : Q :=
  if Z.leb framesForScene 1 then 1
  else inject_Z (Z.of_nat frame) / inject_Z (framesForScene - 1).

(** The inner [for (let frame = 0; frame < framesForScene; frame += 1)] loop,
    with [left] iterations to go. *)
Fixpoint frameLoop (env : Env) (scene : Scene) (fs totalFrames : Z)
    (frame left frameIndex : nat) (written : list string) : M (nat * list string) :=
  match left with
  | O => ret (frameIndex, written)
  | S left' =>
      let progress := frameProgress fs frame in
      let* _ := renderFrame scene progress in
      let filename := frameName frameIndex in
      let* pixels := canvasToUint8 env in
      let* _ := writeFile env filename pixels in
      let written' := app written [filename] in
      let frameIndex' := S frameIndex in
      let* _ := onStage frames (inject_Z (Z.of_nat frameIndex') / inject_Z totalFrames) in
      frameLoop env scene fs totalFrames (S frame) left' frameIndex' written'
  end.

(** The outer [for (const scene of scenes)] loop. *)
Fixpoint sceneLoop (env : Env) (totalFrames : Z) (scenes : list Scene)
    (frameIndex : nat) (written : list string) : M (nat * list string) :=
  match scenes with
  | [] => ret (frameIndex, written)
  | scene :: rest =>
      let fs := framesForScene scene in
      let* '(frameIndex', written') :=
        frameLoop env scene fs totalFrames 0 (Z.to_nat fs) frameIndex written in
      sceneLoop env totalFrames rest frameIndex' written'
  end.

Definition encodeArgs : list string :=
  ["-framerate"; String_of_nat (Z.to_nat FPS); "-i"; "frame_%05d.png";
   "-c:v"; "libx264"; "-pix_fmt"; "yuv420p"; "output.mp4"].

Record Blob := mkBlob { blob_type : string }.

Definition synthesizeVideo (env : Env) (scenes : list Scene) : M Blob :=
  if Nat.eqb (List.length scenes) 0
  then throw "Add at least one scene before rendering."
  else
    let* _ := loadEncoder env in
    let* _ := createCanvas in
    let* _ := getContext env in
    let totalFrames := totalFramesFor scenes in
    let* '(_, writtenFiles) := sceneLoop env totalFrames scenes 0 [] in
    let* _ := onStage muxing (1 # 10) in
    let* data :=
      try_finally
        (let* _ := exec env encodeArgs in
         let* _ := onStage muxing (9 # 10) in
         let* fileData := readFile env "output.mp4" in
         match fileData with
         | TextData => throw "Unexpected encoder output format."
         | Uint8Array =>
             let* _ := onStage muxing 1 in
             ret (Some fileData)
         end)
        (cleanupFfmpeg env writtenFiles) in
    match data with
    | None => throw "Failed to read rendered video output."
    | Some _ => ret (mkBlob "video/mp4")
    end.

(** [RenderState]. *)
Inductive RenderState :=
| Idle
| LoadingEncoder (progress : Q)
| Encoding (progress : Q)
| Ready (url : string)
| ErrorState (error : string).

(** Terminal state of [handleRender] for one export attempt. *)
Definition handleRender (env : Env) (scenes : list Scene) (w : World) : RenderState * World :=
  match synthesizeVideo env scenes w with
  | (Ok _, w') => (Ready "blob:output", w')
  | (Throw e, w') => (ErrorState e, w')
  end.

(** The [onStage] callback [handleRender] passes to [synthesizeVideo]: the
    render state set for each stage report. *)
Definition onStageState (stage : Stage) (progress : Q) : RenderState :=
  match stage with
  | loading => LoadingEncoder ((5 # 100) + progress * (15 # 100))%Q
  | frames => Encoding ((2 # 10) + progress * (6 # 10))%Q
  | muxing => Encoding ((8 # 10) + progress * (2 # 10))%Q
  end.

(** The [progress] field of a render state ([idle] and [error] set 0,
    [ready] sets 1). *)
Definition renderStateProgress (r : RenderState) : Q :=
  match r with
  | Idle => 0
  | LoadingEncoder p => p
  | Encoding p => p
  | Ready _ => 1
  | ErrorState _ => 0
  end.

(* ------------------------------------------------------------------ *)
(** ** [Timeline] *)

(** The grid span of one scene's chip:
    [width = totalDuration ? (scene.duration / totalDuration) * 100 : 0] and
    [span = Math.max(1, Math.round(((width || (100 / scenes.length)) / 100) * 12))]. *)
Definition timelineSpan (sceneCount : nat) (totalDuration : Q) (scene : Scene) : Z :=
  let width := if Qeq_bool totalDuration 0 then 0%Q
               else (duration scene / totalDuration * 100)%Q in
  Z.max 1 (Math_round
             ((if Qeq_bool width 0 then 100 / inject_Z (Z.of_nat sceneCount) else width)
                / 100 * 12)%Q).

(** The spans of all chips, with the [totalDuration] that [Home] computes. *)
Definition timelineSpans (scenes : list Scene) : list Z :=
  map (timelineSpan (List.length scenes) (totalDurationForScenes scenes)) scenes.

(* ------------------------------------------------------------------ *)
(** ** Scene list state of [Home] *)

Record App := mkApp {
  app_scenes : list Scene;
  selectedSceneId : nat;
  nextId : nat  (** [nanoid()] as a fresh-id counter *)
}.

(** [buildInitialScenes]: three scenes, each taking a fresh id. *)
Definition buildInitialScenes (n : nat) : list Scene * nat :=
  ([mkScene n "Showcase your ideas in motion"
      "Craft cinematic storyboards that turn into silky, production-ready clips with zero hassle."
      4 "aurora" "#f8fafc" "#facc15" zoom;
    mkScene (S n) "Scene-aware pacing"
      "Fine-tune every beat. Dial in timing, gradients, and motion for a smooth narrative arc."
      (7 # 2) "midnight" "#e2e8f0" "#38bdf8" slide;
    mkScene (S (S n)) "Render to share in one click"
      "Generate studio-grade MP4s in-browser using a fast WASM encoder optimized for Vercel deploys."
      3 "sunset" "#fff7ed" "#fb7185" drift],
   S (S (S n))).

Definition initialApp : App :=
  let '(scenes, n) := buildInitialScenes 0 in
  mkApp scenes (match scenes with s :: _ => id s | [] => 0 end) n.

(** [Array.prototype.findIndex]: [-1] when absent. *)
Fixpoint findIndex {A} (p : A -> bool) (l : list A) : Z :=
  match l with
  | [] => -1
  | x :: rest => if p x then 0 else
                  let i := findIndex p rest in
                  if Z.eqb i (-1) then -1 else i + 1
  end.

Definition addScene (a : App) : App :=
  let scenes := app_scenes a in
  if Nat.leb MAX_SCENES (List.length scenes) then a
  else
    let '(template, n) :=
      match rev scenes with
      | t :: _ => (t, nextId a)
      | [] => let '(init, n') := buildInitialScenes (nextId a) in
              (hd (mkScene 0 "" "" 0 "" "" "" zoom) init, n')
      end in
    let idx := ((findIndex (fun g => String.eqb (gid g) (gradientId template)) GRADIENTS + 1)
               mod Z.of_nat (List.length GRADIENTS))%Z in
    match nth_error GRADIENTS (Z.to_nat idx) with
    | None => a  (* [GRADIENTS[NaN].id] throws: no state change *)
    | Some gradient =>
        let newScene :=
          mkScene n "New Narrative Moment"
            "Swap in your copy and colors, then keep sculpting the flow."
            (clamp (duration template) MIN_DURATION MAX_DURATION)
            (gid gradient) (textColor template) (accent template)
            (animation template) in
        mkApp (app scenes [newScene]) (id newScene) (S n)
  end.

Definition removeScene (a : App) (sid : nat) : App :=
  let scenes := app_scenes a in
  if Nat.eqb (List.length scenes) 1 then a
  else
    let scenes' := filter (fun scene => negb (Nat.eqb (id scene) sid)) scenes in
    let selected :=
      if Nat.eqb (selectedSceneId a) sid then
        match find (fun scene => negb (Nat.eqb (id scene) sid)) scenes with
        | Some nextScene => id nextScene
        | None => selectedSceneId a
        end
      else selectedSceneId a in
    mkApp scenes' selected (nextId a).

Definition updateScene (a : App) (sid : nat) (updater : Scene -> Scene) : App :=
  mkApp (map (fun scene => if Nat.eqb (id scene) sid then updater scene else scene)
           (app_scenes a))
    (selectedSceneId a) (nextId a).

Definition activeScene (a : App) : option Scene :=
  match find (fun scene => Nat.eqb (id scene) (selectedSceneId a)) (app_scenes a) with
  | Some s => Some s
  | None => hd_error (app_scenes a)
  end.

(** The fields edited by [SceneEditor]; [SetDuration v] carries
    [Number(event.target.value)] of the number input. *)
Inductive Edit :=
| SetTitle (v : string)
| SetDescription (v : string)
| SetDuration (v : Q)
| SetTextColor (v : string)
| SetAccent (v : string)
| SetGradient (v : string)
| SetAnimation (v : SceneAnimation).

(** The [{ ...scene, field: value }] record built by each editor control. *)
Definition applyEdit (s : Scene) (e : Edit) : Scene :=
  match e with
  | SetTitle v => mkScene (id s) v (description s) (duration s) (gradientId s)
                    (textColor s) (accent s) (animation s)
  | SetDescription v => mkScene (id s) (title s) v (duration s) (gradientId s)
                          (textColor s) (accent s) (animation s)
  | SetDuration v =>
      mkScene (id s) (title s) (description s)
        (clamp v MIN_DURATION MAX_DURATION) (gradientId s)
        (textColor s) (accent s) (animation s)
  | SetTextColor v => mkScene (id s) (title s) (description s) (duration s)
                        (gradientId s) v (accent s) (animation s)
  | SetAccent v => mkScene (id s) (title s) (description s) (duration s)
                     (gradientId s) (textColor s) v (animation s)
  | SetGradient v => mkScene (id s) (title s) (description s) (duration s)
                       v (textColor s) (accent s) (animation s)
  | SetAnimation v => mkScene (id s) (title s) (description s) (duration s)
                        (gradientId s) (textColor s) (accent s) v
  end.

Inductive Action :=
| AddScene
| RemoveScene (sid : nat)
| SelectScene (sid : nat)
| EditScene (e : Edit).

(** [onChange={(updated) => updateScene(activeScene.id, () => updated)}]. *)
Definition step (a : App) (act : Action) : App :=
  match act with
  | AddScene => addScene a
  | RemoveScene sid => removeScene a sid
  | SelectScene sid => mkApp (app_scenes a) sid (nextId a)
  | EditScene e =>
      match activeScene a with
      | None => a
      | Some scene => let updated := applyEdit scene e in
                      updateScene a (id scene) (fun _ => updated)
      end
  end.

Definition run (acts : list Action) : App := fold_left step acts initialApp.

(* ------------------------------------------------------------------ *)
(** ** Auxiliary definitions used in the statements *)

(** The image of a surface: its size and the commands painted on it. *)
Definition surfaceImage (c : Ctx) : Q * Q * list DrawOp :=
  (cwidth c, cheight c, painted c).

Definition addDuration (total : Q) (scene : Scene) : Q := total + duration scene.

(** Start time of scene [i]: the sum of the durations before it. *)
Definition sceneStart (scenes : list Scene) (i : nat) : Q :=
  totalDurationForScenes (firstn i scenes).

Definition duration_in_bounds (s : Scene) : Prop :=
  MIN_DURATION <= duration s /\ duration s <= MAX_DURATION.

Definition app_wf (a : App) : Prop :=
  (1 <= List.length (app_scenes a) <= MAX_SCENES)%nat /\
  NoDup (map id (app_scenes a)) /\
  Forall (fun s => (id s < nextId a)%nat) (app_scenes a).

Fixpoint textOps (st : DrawState) (lines : list string) (y dy : Q) : list DrawOp :=
  match lines with
  | [] => []
  | line :: rest => FillText st line 0 y :: textOps st rest (y + dy) dy
  end.

Fixpoint endY (lines : list string) (y dy : Q) : Q :=
  match lines with
  | [] => y
  | _ :: rest => endY rest (y + dy) dy
  end.


(** The events the frame loop emits, iteration by iteration. *)
Fixpoint frameEvents (scene : Scene) (fs totalFrames : Z) (frame left frameIndex : nat)
    : list Event :=
  match left with
  | O => []
  | S left' =>
      [RenderedFrame scene (frameProgress fs frame);
       WroteFile (frameName frameIndex);
       OnStage frames (inject_Z (Z.of_nat (S frameIndex)) / inject_Z totalFrames)] ++
      frameEvents scene fs totalFrames (S frame) left' (S frameIndex)
  end.

Fixpoint sceneEvents (totalFrames : Z) (scenes : list Scene) (frameIndex : nat) : list Event :=
  match scenes with
  | [] => []
  | scene :: rest =>
      let fs := framesForScene scene in
      frameEvents scene fs totalFrames 0 (Z.to_nat fs) frameIndex ++
      sceneEvents totalFrames rest (frameIndex + Z.to_nat fs)
  end.

(** Number of frames of a scene list: the sum of the per-scene counts. *)
Definition frameCount (scenes : list Scene) : nat :=
  list_sum (map (fun s => Z.to_nat (framesForScene s)) scenes).

Definition isRendered (e : Event) : bool :=
  match e with RenderedFrame _ _ => true | _ => false end.

Definition isWrite (e : Event) : bool :=
  match e with WroteFile _ => true | _ => false end.

(** [m] emits no event selected by [f]. *)
Definition Quiet {A} (f : Event -> bool) (m : M A) : Prop :=
  forall w, filter f (trace (snd (m w))) = filter f (trace w).

(** Zero-padded five-digit decimal form of [i]. *)
Definition digitChar (d : nat) : ascii := ascii_of_nat (48 + d).

Definition fiveDigits (i : nat) : string :=
  String (digitChar (i / 10000 mod 10))
    (String (digitChar (i / 1000 mod 10))
       (String (digitChar (i / 100 mod 10))
          (String (digitChar (i / 10 mod 10))
             (String (digitChar (i mod 10)) EmptyString)))).

(** Events of the muxing and cleanup steps. *)
Definition muxEvent (e : Event) : bool :=
  match e with
  | OnStage _ _ | Executed _ | ReadBack _ | DeletedFile _ => true
  | _ => false
  end.

(** The progress values of the [frames]-stage reports, in order. *)
Definition framesStage (tr : list Event) : list Q :=
  flat_map (fun e => match e with OnStage frames p => [p] | _ => [] end) tr.

Definition isDelete (e : Event) : bool :=
  match e with DeletedFile _ => true | _ => false end.

(** Sample environments: everything succeeds, or only [exec] fails. *)
Definition env_ok : Env :=
  mkEnv true true true (fun _ => true) true true (fun _ => true).

Definition env_exec_fail : Env :=
  mkEnv true true true (fun _ => true) false true (fun _ => true).

Definition sampleScene (d : Q) (g : string) : Scene :=
  mkScene 0 "Intro" "Hello motion" d g "#f8fafc" "#facc15" zoom.

Definition emptyWorld : World :=
  mkWorld [] [] (freshCtx CANVAS_WIDTH CANVAS_HEIGHT).

Definition isStage (e : Event) : bool :=
  match e with OnStage _ _ => true | _ => false end.

(** The progress shown for a stage report. *)
Definition stageUiProgress (e : Event) : Q :=
  match e with
  | OnStage st p => renderStateProgress (onStageState st p)
  | _ => 0
  end.

Definition muxReports : list Event :=
  [OnStage muxing (1 # 10); OnStage muxing (9 # 10); OnStage muxing 1].

(** [n] is none of [names]. *)
Definition keepFile (names : list string) (n : string) : bool :=
  negb (existsb (String.eqb n) names).

(** The steps of [synthesizeVideo] after the frame loop, for the list of
    written files (the same code as in [synthesizeVideo]). *)
Definition afterFrames (env : Env) (writtenFiles : list string) : M Blob :=
  let* _ := onStage muxing (1 # 10) in
  let* data :=
    try_finally
      (let* _ := exec env encodeArgs in
       let* _ := onStage muxing (9 # 10) in
       let* fileData := readFile env "output.mp4" in
       match fileData with
       | TextData => throw "Unexpected encoder output format."
       | Uint8Array =>
           let* _ := onStage muxing 1 in
           ret (Some fileData)
       end)
      (cleanupFfmpeg env writtenFiles) in
  match data with
  | None => throw "Failed to read rendered video output."
  | Some _ => ret (mkBlob "video/mp4")
  end.

(** Environment in which the frame stage cannot fail. *)
Definition framesEnvOk (env : Env) : Prop :=
  getFFmpeg_ok env = true /\ context2d_ok env = true /\ atob_ok env = true /\
  (forall n, writeFile_ok env n = true).

(* ================================================================== *)
(** * Proofs *)

Open Scope Q_scope.
Open Scope list_scope.

(** ** Monad facts *)

Lemma bind_Ok_inv {A B} (m : M A) (k : A -> M B) w r w' :
  bind m k w = (Ok r, w') ->
  exists a w1, m w = (Ok a, w1) /\ k a w1 = (Ok r, w').
Proof.
  unfold bind. destruct (m w) as [[a|e] w1]; intros H.
  - exists a, w1. auto.
  - discriminate.
Qed.

(** ** Renderer: failure on a dangling gradient reference *)

Lemma frameLoop_Ok_resolves env scene fs tf frame left fi wr w r w' :
  (0 < left)%nat ->
  frameLoop env scene fs tf frame left fi wr w = (Ok r, w') ->
  findGradient (gradientId scene) <> None.
Proof.
  destruct left as [|left]; [lia|]. intros _ H. simpl in H.
  apply bind_Ok_inv in H as (a & w1 & Hr & _).
  unfold renderFrame, renderSceneFrame in Hr.
  destruct (findGradient (gradientId scene)); [discriminate|discriminate].
Qed.

Lemma framesForScene_pos scene : (1 <= framesForScene scene)%Z.
Proof. unfold framesForScene. lia. Qed.

Lemma sceneLoop_Ok_resolves env tf scenes fi wr w r w' :
  sceneLoop env tf scenes fi wr w = (Ok r, w') ->
  forall s, In s scenes -> findGradient (gradientId s) <> None.
Proof.
  revert fi wr w. induction scenes as [|sc rest IH]; intros fi wr w H s Hin.
  - destruct Hin.
  - simpl in H. apply bind_Ok_inv in H as ([fi' wr'] & w1 & Hf & Hk).
    destruct Hin as [<-|Hin].
    + eapply frameLoop_Ok_resolves; [|exact Hf].
      pose proof (framesForScene_pos sc). lia.
    + exact (IH _ _ _ Hk s Hin).
Qed.

Lemma synthesizeVideo_Ok_resolves env scenes w r w' :
  synthesizeVideo env scenes w = (Ok r, w') ->
  forall s, In s scenes -> findGradient (gradientId s) <> None.
Proof.
  unfold synthesizeVideo. destruct (Nat.eqb (List.length scenes) 0); [discriminate|].
  intros H.
  apply bind_Ok_inv in H as (? & w1 & _ & H).
  apply bind_Ok_inv in H as (? & w2 & _ & H).
  apply bind_Ok_inv in H as (? & w3 & _ & H).
  apply bind_Ok_inv in H as ([fi wr] & w4 & H & _).
  exact (sceneLoop_Ok_resolves _ _ _ _ _ _ _ _ H).
Qed.

(** [C6] For every scene whose [gradientId] has no entry in the registry and
    every progress value, [renderSceneFrame] fails with the gradient-lookup
    error and leaves the context exactly as it was (no drawing command is
    issued, no default gradient is used); and any export attempt whose scene
    list contains such a scene ends in the terminal error state. *)
Theorem renderSceneFrame_missing_gradient (scene : Scene) :
  findGradient (gradientId scene) = None ->
  (forall (c : Ctx) (progress : Q),
      renderSceneFrame c scene progress =
      (Throw ("Missing gradient " ++ dq ++ gradientId scene ++ dq ++ ".")%string, c)) /\
  (forall env scenes w, In scene scenes ->
      exists msg, fst (handleRender env scenes w) = ErrorState msg).
Proof.
  intros Hnone. split.
  - intros c progress. unfold renderSceneFrame. now rewrite Hnone.
  - intros env scenes w Hin. unfold handleRender.
    destruct (synthesizeVideo env scenes w) as [[b|e] w'] eqn:E.
    + exfalso. exact (synthesizeVideo_Ok_resolves _ _ _ _ _ E scene Hin Hnone).
    + now exists e.
Qed.

(** ** Orchestrator: validation of the scene list *)

(** [C8] [synthesizeVideo] on an empty scene list throws the validation
    error and leaves the world untouched: the encoder is not loaded, no file
    is written and no stage progress is reported. *)
Theorem synthesizeVideo_empty (env : Env) (w : World) :
  synthesizeVideo env [] w = (Throw "Add at least one scene before rendering.", w).
Proof. reflexivity. Qed.

(** ** Timeline *)


Lemma fold_addDuration_mono l e :
  Forall (fun s => 0 <= duration s) l -> e <= fold_left addDuration l e.
Proof.
  revert e. induction l as [|a l IH]; intros e Hl; simpl.
  - apply Qle_refl.
  - inversion Hl as [|? ? Ha Hl']; subst.
    apply Qle_trans with (e + duration a).
    + rewrite <- (Qplus_0_r e) at 1. apply Qplus_le_compat; [apply Qle_refl|exact Ha].
    + apply IH. exact Hl'.
Qed.

Lemma previewLoop_inside c fb t l e d :
  e <= t -> t < fold_left addDuration l e ->
  exists i, (i < List.length l)%nat /\
    fold_left addDuration (firstn i l) e <= t /\
    t < fold_left addDuration (firstn i l) e + duration (nth i l d) /\
    previewLoop c fb t e l =
    renderSceneFrame c (nth i l d)
      ((t - fold_left addDuration (firstn i l) e) / duration (nth i l d)).
Proof.
  revert e. induction l as [|a l IH]; intros e He Ht; simpl in Ht.
  - exfalso. apply (Qlt_not_le _ _ Ht He).
  - simpl. unfold Qgeb, Qltb.
    destruct (Qle_bool e t) eqn:E1; [|apply Qle_bool_iff in He; congruence].
    destruct (Qle_bool (e + duration a) t) eqn:E2; simpl.
    + apply Qle_bool_iff in E2.
      destruct (IH (e + duration a) E2 Ht) as (i & Hi & H1 & H2 & H3).
      exists (S i). simpl. repeat split; auto; lia.
    + exists O. simpl. repeat split; auto; try lia.
      * apply Qnot_le_lt. intros Hc. apply Qle_bool_iff in Hc. congruence.
Qed.

Lemma previewLoop_beyond c fb t l e :
  Forall (fun s => 0 <= duration s) l ->
  fold_left addDuration l e <= t ->
  previewLoop c fb t e l = renderSceneFrame c fb 1.
Proof.
  revert e. induction l as [|a l IH]; intros e Hl Ht; simpl in *.
  - reflexivity.
  - inversion Hl as [|? ? Ha Hl']; subst.
    assert (Hle : e + duration a <= t).
    { apply Qle_trans with (fold_left addDuration l (e + duration a)); auto.
      apply fold_addDuration_mono. exact Hl'. }
    unfold Qltb. apply Qle_bool_iff in Hle. rewrite Hle, andb_false_r.
    apply IH; auto.
Qed.

Lemma sceneStart_S scenes j d :
  (j < List.length scenes)%nat ->
  sceneStart scenes (S j) = sceneStart scenes j + duration (nth j scenes d).
Proof.
  intros Hj. unfold sceneStart, totalDurationForScenes.
  revert j Hj. induction scenes as [|a l IH]; intros j Hj; simpl in Hj; [lia|].
  destruct j as [|j].
  - reflexivity.
  - simpl. specialize (IH j ltac:(lia)).
    change (fold_left (fun total scene => total + duration scene) (firstn (S j) l) (0 + duration a) =
            fold_left (fun total scene => total + duration scene) (firstn j l) (0 + duration a) +
            duration (nth j l d)).
    clear IH. generalize (0 + duration a). revert j Hj.
    induction l as [|b l IH]; intros j Hj e; simpl in Hj; [lia|].
    destruct j as [|j]; [reflexivity|]. simpl. apply IH. lia.
Qed.

Lemma firstn_plus {A} (j m : nat) (l : list A) :
  firstn (j + m) l = firstn j l ++ firstn m (skipn j l).
Proof.
  revert l. induction j as [|j IH]; intros l; [reflexivity|].
  destruct l as [|a l]; simpl.
  - now rewrite firstn_nil.
  - now rewrite IH.
Qed.

Lemma In_firstn_l {A} n (l : list A) x : In x (firstn n l) -> In x l.
Proof.
  intros H. rewrite <- (firstn_skipn n l). apply in_or_app. now left.
Qed.

Lemma In_skipn_l {A} n (l : list A) x : In x (skipn n l) -> In x l.
Proof.
  intros H. rewrite <- (firstn_skipn n l). apply in_or_app. now right.
Qed.

Lemma sceneStart_mono scenes j k :
  Forall (fun s => 0 <= duration s) scenes ->
  (j <= k)%nat -> sceneStart scenes j <= sceneStart scenes k.
Proof.
  intros Hl Hjk. unfold sceneStart, totalDurationForScenes.
  replace k with (j + (k - j))%nat by lia. generalize (k - j)%nat as m. intros m.
  rewrite firstn_plus, fold_left_app.
  apply fold_addDuration_mono.
  apply Forall_forall. intros x Hx. rewrite Forall_forall in Hl.
  apply Hl. apply In_firstn_l in Hx. apply In_skipn_l in Hx. exact Hx.
Qed.

Lemma last_default_irrel {A} (l : list A) (d d' : A) : l <> [] -> last l d = last l d'.
Proof.
  induction l as [|a l IH]; intros H; [congruence|].
  destruct l as [|b l]; [reflexivity|]. simpl. apply IH. discriminate.
Qed.

(** [C2] Timeline resolution in [renderPreviewFrame].  For a scene list
    with non-negative durations and positive total duration: every time [t]
    in [[0, total)] lies in exactly one half-open interval
    [[start_i, start_i + duration_i)] and the frame rendered is scene [i] at
    local progress [(t - start_i) / duration_i]; every [t >= total] renders
    the last scene at progress 1.  In particular a single scene of duration
    2 gets progress 0 at [t = 0], 0.5 at [t = 1], and 1 for [t >= 2]. *)
Theorem renderPreviewFrame_timeline :
  (forall (c : Ctx) (scenes : list Scene) (t : Q) (d : Scene),
     Forall (fun s => 0 <= duration s) scenes ->
     0 < totalDurationForScenes scenes ->
     (0 <= t -> t < totalDurationForScenes scenes ->
        exists i, (i < List.length scenes)%nat /\
          (forall j, (j < List.length scenes)%nat ->
             (sceneStart scenes j <= t /\
              t < sceneStart scenes j + duration (nth j scenes d)) <-> j = i) /\
          renderPreviewFrame c scenes t =
          renderSceneFrame c (nth i scenes d)
            ((t - sceneStart scenes i) / duration (nth i scenes d))) /\
     (totalDurationForScenes scenes <= t ->
        renderPreviewFrame c scenes t = renderSceneFrame c (last scenes d) 1)) /\
  (forall (c : Ctx) (s : Scene), duration s = 2 ->
     (exists p, renderPreviewFrame c [s] 0 = renderSceneFrame c s p /\ p == 0) /\
     (exists p, renderPreviewFrame c [s] 1 = renderSceneFrame c s p /\ p == 1 # 2) /\
     (forall t, 2 <= t -> renderPreviewFrame c [s] t = renderSceneFrame c s 1)).
Proof.
  split.
  - intros c scenes t d Hnn Hpos.
    assert (Hnz : Qeq_bool (totalDurationForScenes scenes) 0 = false).
    { destruct (Qeq_bool _ 0) eqn:E; [|reflexivity].
      apply Qeq_bool_iff in E. rewrite E in Hpos. exact (False_ind _ (Qlt_irrefl _ Hpos)). }
    destruct scenes as [|s0 rest].
    { exact (False_ind _ (Qlt_irrefl _ Hpos)). }
    unfold renderPreviewFrame. rewrite Hnz. split.
    + intros Ht0 Ht.
      destruct (previewLoop_inside c (last (s0 :: rest) s0) t (s0 :: rest) 0 d Ht0 Ht)
        as (i & Hi & H1 & H2 & H3).
      exists i. split; [exact Hi|]. split; [|exact H3].
      intros j Hj. split.
      * intros [Hj1 Hj2].
        destruct (Nat.lt_trichotomy j i) as [Hlt|[Heq|Hgt]]; [exfalso| exact Heq |exfalso].
        -- rewrite <- (sceneStart_S _ _ d Hj) in Hj2.
           pose proof (sceneStart_mono _ (S j) i Hnn ltac:(lia)).
           apply (Qlt_not_le _ _ Hj2). apply Qle_trans with (sceneStart (s0 :: rest) i); auto.
        -- change (t < sceneStart (s0 :: rest) i + duration (nth i (s0 :: rest) d)) in H2.
           rewrite <- (sceneStart_S _ _ d Hi) in H2.
           pose proof (sceneStart_mono _ (S i) j Hnn ltac:(lia)).
           apply (Qlt_not_le _ _ H2). apply Qle_trans with (sceneStart (s0 :: rest) j); auto.
      * intros ->. split; assumption.
    + intros Ht. rewrite (last_default_irrel _ s0 d) by discriminate.
      apply previewLoop_beyond; assumption.
  - intros c s Hd.
    assert (Hnz : Qeq_bool (totalDurationForScenes [s]) 0 = false).
    { unfold totalDurationForScenes. simpl. rewrite Hd. reflexivity. }
    unfold renderPreviewFrame. rewrite Hnz. simpl.
    unfold Qgeb, Qltb. rewrite Hd. split; [|split].
    + exists ((0 - 0) / 2). split; reflexivity.
    + exists ((1 - 0) / 2). split; reflexivity.
    + intros t Ht.
      replace (Qle_bool (0 + 2) t) with true by (symmetry; apply Qle_bool_iff; exact Ht).
      rewrite andb_false_r. reflexivity.
Qed.

(** ** Scene list invariants *)


Lemma clamp_in_bounds v : MIN_DURATION <= clamp v MIN_DURATION MAX_DURATION /\
                          clamp v MIN_DURATION MAX_DURATION <= MAX_DURATION.
Proof.
  unfold clamp. split.
  - apply Q.min_glb.
    + apply Q.le_max_r.
    + unfold MIN_DURATION, MAX_DURATION, Qle. simpl. lia.
  - apply Q.le_min_r.
Qed.

Lemma activeScene_in a s : activeScene a = Some s -> In s (app_scenes a).
Proof.
  unfold activeScene.
  destruct (find _ (app_scenes a)) as [s'|] eqn:E; intros H.
  - injection H as <-. eapply find_some. exact E.
  - destruct (app_scenes a) as [|x l]; simpl in H; [discriminate|].
    injection H as <-. now left.
Qed.

Lemma applyEdit_id s e : id (applyEdit s e) = id s.
Proof. destruct e; reflexivity. Qed.

Lemma applyEdit_bounds s e :
  duration_in_bounds s -> duration_in_bounds (applyEdit s e).
Proof.
  intros H. destruct e; try exact H. apply clamp_in_bounds.
Qed.

Lemma initial_bounds : Forall duration_in_bounds (app_scenes initialApp).
Proof.
  repeat constructor; unfold MIN_DURATION, MAX_DURATION, Qle; simpl; lia.
Qed.

Lemma step_bounds a act :
  Forall duration_in_bounds (app_scenes a) ->
  Forall duration_in_bounds (app_scenes (step a act)).
Proof.
  intros Ha. destruct act as [| sid | sid | e]; simpl.
  - unfold addScene.
    destruct (Nat.leb MAX_SCENES _); [exact Ha|].
    destruct (match rev (app_scenes a) with
              | [] => _ | t :: _ => _ end) as [template n].
    destruct (nth_error GRADIENTS _) as [g|]; [|exact Ha].
    simpl. apply Forall_app. split; [exact Ha|].
    constructor; [apply clamp_in_bounds | constructor].
  - unfold removeScene. destruct (Nat.eqb _ 1); [exact Ha|]. simpl.
    rewrite Forall_forall in *. intros x Hx. apply filter_In in Hx. apply Ha, Hx.
  - exact Ha.
  - destruct (activeScene a) as [s|] eqn:E; [|exact Ha].
    pose proof (activeScene_in _ _ E) as Hin. simpl.
    rewrite Forall_forall in *. intros x Hx. apply in_map_iff in Hx as (y & <- & Hy).
    destruct (Nat.eqb (id y) (id s)).
    + apply applyEdit_bounds, Ha, Hin.
    + apply Ha, Hy.
Qed.

Lemma run_bounds_from acts a :
  Forall duration_in_bounds (app_scenes a) ->
  Forall duration_in_bounds (app_scenes (fold_left step acts a)).
Proof.
  revert a. induction acts as [|act acts IH]; intros a Ha; simpl; auto.
  apply IH, step_bounds, Ha.
Qed.

(** [C9] Every scene's duration stays within [[MIN_DURATION, MAX_DURATION]]
    = [[2, 8]] after any sequence of scene-list operations from the initial
    scenes: adding, removing, selecting and every [SceneEditor] edit (the
    duration input clamps the entered number). *)
Theorem durations_in_bounds (acts : list Action) :
  Forall (fun s => MIN_DURATION <= duration s /\ duration s <= MAX_DURATION)
    (app_scenes (run acts)).
Proof. apply run_bounds_from, initial_bounds. Qed.


Lemma NoDup_map_filter (f : Scene -> bool) l :
  NoDup (map id l) -> NoDup (map id (filter f l)).
Proof.
  induction l as [|x l IH]; intros H; simpl; [constructor|].
  inversion H as [|? ? Hx Hl]; subst.
  destruct (f x); simpl; auto.
  constructor; auto. intros Hin. apply Hx.
  apply in_map_iff in Hin as (y & Hy & Hyin). apply filter_In in Hyin.
  rewrite <- Hy. apply in_map, Hyin.
Qed.

Lemma filter_all_true (f : Scene -> bool) l :
  (forall x, In x l -> f x = true) -> filter f l = l.
Proof.
  induction l as [|x l IH]; intros H; simpl; [reflexivity|].
  rewrite (H x (or_introl eq_refl)). f_equal. apply IH. intros y Hy. apply H. now right.
Qed.

Lemma filter_unique_length l sid :
  NoDup (map id l) ->
  (List.length l <= S (List.length (filter (fun s => negb (Nat.eqb (id s) sid)) l)))%nat.
Proof.
  induction l as [|x l IH]; intros H; simpl; [lia|].
  inversion H as [|? ? Hx Hl]; subst.
  destruct (Nat.eqb (id x) sid) eqn:E; simpl.
  - apply Nat.eqb_eq in E. rewrite filter_all_true; [lia|].
    intros y Hy. apply negb_true_iff, Nat.eqb_neq. intros Hc. apply Hx.
    rewrite E, <- Hc. apply in_map, Hy.
  - specialize (IH Hl). lia.
Qed.

Lemma map_id_update (u : Scene) k l :
  id u = k ->
  map id (map (fun scene => if Nat.eqb (id scene) k then u else scene) l) = map id l.
Proof.
  intros Hu. induction l as [|x l IH]; simpl; [reflexivity|].
  rewrite IH. destruct (Nat.eqb (id x) k) eqn:E; [|reflexivity].
  apply Nat.eqb_eq in E. congruence.
Qed.

Lemma initial_wf : app_wf initialApp.
Proof.
  unfold app_wf. simpl. split; [unfold MAX_SCENES; lia|]. split.
  - repeat constructor; simpl; lia.
  - repeat constructor; simpl; lia.
Qed.

Lemma step_wf a act : app_wf a -> app_wf (step a act).
Proof.
  intros Hwf. pose proof Hwf as (Hlen & Hnd & Hfresh). destruct act as [| sid | sid | e]; simpl.
  - unfold addScene.
    destruct (Nat.leb MAX_SCENES _) eqn:Emax; [exact Hwf|].
    apply Nat.leb_gt in Emax.
    assert (Hn : exists template n,
               (nextId a <= n)%nat /\
               (match rev (app_scenes a) with
                | t :: _ => (t, nextId a)
                | [] => let '(init, n') := buildInitialScenes (nextId a) in
                        (hd (mkScene 0 "" "" 0 "" "" "" zoom) init, n')
                end) = (template, n)).
    { destruct (rev (app_scenes a)) as [|t r].
      - eexists _, _. split; [|reflexivity]. simpl. lia.
      - eexists _, _. split; [|reflexivity]. lia. }
    destruct Hn as (template & n & Hle & ->).
    destruct (nth_error GRADIENTS _) as [g|]; [|exact Hwf].
    unfold app_wf. simpl. rewrite length_app. simpl. split; [lia|]. split.
    + rewrite map_app. simpl. apply NoDup_app; auto.
      * repeat constructor. intros [].
      * intros x Hx [Hy|[]]. simpl in Hy. subst x.
        apply in_map_iff in Hx as (y & Hy & Hyin). rewrite Forall_forall in Hfresh.
        specialize (Hfresh y Hyin). lia.
    + apply Forall_app. split.
      * eapply Forall_impl; [|exact Hfresh]. intros s Hs. simpl in Hs. lia.
      * constructor; [simpl; lia|constructor].
  - unfold removeScene. destruct (Nat.eqb _ 1) eqn:E1; [exact Hwf|].
    apply Nat.eqb_neq in E1. unfold app_wf. simpl.
    pose proof (filter_unique_length (app_scenes a) sid Hnd).
    pose proof (filter_length_le (fun s => negb (Nat.eqb (id s) sid)) (app_scenes a)).
    split; [lia|]. split.
    + apply NoDup_map_filter, Hnd.
    + rewrite Forall_forall in *. intros x Hx. apply filter_In in Hx. apply Hfresh, Hx.
  - exact Hwf.
  - destruct (activeScene a) as [s|] eqn:E; [|exact Hwf].
    unfold updateScene, app_wf. simpl.
    rewrite length_map, map_id_update by apply applyEdit_id.
    split; [lia|]. split; [exact Hnd|].
    rewrite Forall_forall in *. intros x Hx. apply in_map_iff in Hx as (y & <- & Hy).
    destruct (Nat.eqb (id y) (id s)) eqn:Ey.
    + rewrite applyEdit_id. apply Nat.eqb_eq in Ey. rewrite <- Ey. apply Hfresh, Hy.
    + apply Hfresh, Hy.
Qed.

Lemma run_wf_from acts a : app_wf a -> app_wf (fold_left step acts a).
Proof.
  revert a. induction acts as [|act acts IH]; intros a Ha; simpl; auto.
  apply IH, step_wf, Ha.
Qed.

(** [C10] Every sequence of scene-list operations from the initial scenes
    keeps [1 <= #scenes <= MAX_SCENES = 6]; [removeScene] on a one-scene
    list and [addScene] on a six-scene list change nothing. *)
Theorem scene_count_bounds :
  (forall acts, (1 <= List.length (app_scenes (run acts)) <= MAX_SCENES)%nat) /\
  (forall a sid, List.length (app_scenes a) = 1%nat -> removeScene a sid = a) /\
  (forall a, List.length (app_scenes a) = MAX_SCENES -> addScene a = a).
Proof.
  split; [|split].
  - intros acts. apply (run_wf_from acts initialApp initial_wf).
  - intros a sid H. unfold removeScene. now rewrite H.
  - intros a H. unfold addScene. now rewrite H.
Qed.

(** ** Renderer determinism *)



Lemma fillLines_eq c lines y dy :
  fillLines c lines y dy =
  (mkCtx (cwidth c) (cheight c) (cstate c) (cstack c) (cpath c)
     (painted c ++ textOps (cstate c) lines y dy), endY lines y dy).
Proof.
  destruct c as [w h st stk pth pnt]. simpl.
  unfold fillLines. revert pnt y.
  induction lines as [|line rest IH]; intros pnt y; simpl.
  - now rewrite app_nil_r.
  - unfold fillText, paint. simpl. rewrite IH, <- app_assoc. reflexivity.
Qed.

Lemma renderSceneFrame_quiescent scene progress :
  findGradient (gradientId scene) <> None ->
  exists ops : list DrawOp,
    forall w h pth pnt,
      exists pth',
        renderSceneFrame (mkCtx w h defaultDrawState [] pth pnt) scene progress =
        (Ok tt, mkCtx w h defaultDrawState [] pth' (pnt ++ ops)).
Proof.
  intros Hg. destruct (findGradient (gradientId scene)) as [g|] eqn:E; [|congruence].
  eexists. intros w h pth pnt. eexists.
  unfold renderSceneFrame. rewrite E.
  unfold drawTextBlock, wrapText.
  cbn - [fillLines].
  rewrite fillLines_eq. cbn - [fillLines].
  rewrite fillLines_eq. cbn - [fillLines].
  rewrite <- !app_assoc. simpl. reflexivity.
Qed.

(** [C4] Determinism of [renderSceneFrame].  For a scene whose gradient
    resolves and a progress value there is one list of drawing commands
    [ops] such that rendering onto ANY surface in the initial drawing state
    (a fresh canvas, or one that already rendered any number of frames,
    since every call restores that state) succeeds, appends exactly [ops]
    to what the surface painted before, and restores the drawing state and
    the surface size.  Hence two fresh surfaces of the same size end with
    the same image (size and painted list). *)
Theorem renderSceneFrame_deterministic (scene : Scene) (progress : Q) :
  findGradient (gradientId scene) <> None ->
  exists ops : list DrawOp,
    (forall c : Ctx,
       cstate c = defaultDrawState -> cstack c = [] ->
       fst (renderSceneFrame c scene progress) = Ok tt /\
       painted (snd (renderSceneFrame c scene progress)) = painted c ++ ops /\
       cstate (snd (renderSceneFrame c scene progress)) = defaultDrawState /\
       cstack (snd (renderSceneFrame c scene progress)) = [] /\
       cwidth (snd (renderSceneFrame c scene progress)) = cwidth c /\
       cheight (snd (renderSceneFrame c scene progress)) = cheight c) /\
    (forall c1 c2 : Ctx,
       c1 = freshCtx CANVAS_WIDTH CANVAS_HEIGHT ->
       cwidth c2 = CANVAS_WIDTH -> cheight c2 = CANVAS_HEIGHT ->
       cstate c2 = defaultDrawState -> cstack c2 = [] -> painted c2 = [] ->
       surfaceImage (snd (renderSceneFrame c1 scene progress)) =
       surfaceImage (snd (renderSceneFrame c2 scene progress))).
Proof.
  intros Hg. destruct (renderSceneFrame_quiescent scene progress Hg) as [ops Hops].
  assert (Hall : forall c : Ctx,
       cstate c = defaultDrawState -> cstack c = [] ->
       fst (renderSceneFrame c scene progress) = Ok tt /\
       painted (snd (renderSceneFrame c scene progress)) = painted c ++ ops /\
       cstate (snd (renderSceneFrame c scene progress)) = defaultDrawState /\
       cstack (snd (renderSceneFrame c scene progress)) = [] /\
       cwidth (snd (renderSceneFrame c scene progress)) = cwidth c /\
       cheight (snd (renderSceneFrame c scene progress)) = cheight c).
  { intros [w h st stk pth pnt] Hst Hstk. simpl in Hst, Hstk. subst.
    destruct (Hops w h pth pnt) as [pth' ->]. simpl. repeat split. }
  exists ops. split; [exact Hall|].
  intros c1 c2 -> Hw Hh Hst Hstk Hp.
  destruct (Hall (freshCtx CANVAS_WIDTH CANVAS_HEIGHT) eq_refl eq_refl) as (_ & P1 & _ & _ & W1 & H1).
  destruct (Hall c2 Hst Hstk) as (_ & P2 & _ & _ & W2 & H2).
  unfold surfaceImage. rewrite P1, P2, W1, W2, H1, H2, Hw, Hh, Hp. reflexivity.
Qed.

(** ** The frame stage *)

Lemma bind_Ok {A B} (m : M A) (k : A -> M B) w a w1 :
  m w = (Ok a, w1) -> bind m k w = k a w1.
Proof. intros H. unfold bind. now rewrite H. Qed.

Lemma frameLoop_ok env scene fs tf frame left fi wr w :
  atob_ok env = true -> (forall n, writeFile_ok env n = true) ->
  findGradient (gradientId scene) <> None ->
  cstate (canvas w) = defaultDrawState -> cstack (canvas w) = [] ->
  exists w',
    frameLoop env scene fs tf frame left fi wr w =
      (Ok (fi + left, wr ++ map frameName (seq fi left))%nat, w') /\
    trace w' = trace w ++ frameEvents scene fs tf frame left fi /\
    cstate (canvas w') = defaultDrawState /\ cstack (canvas w') = [].
Proof.
  intros Hatob Hwrite Hg.
  destruct (renderSceneFrame_quiescent scene (frameProgress fs frame) Hg) as [ops0 _].
  revert frame fi wr w.
  induction left as [|left IH]; intros frame fi wr w Hst Hstk.
  - exists w. simpl. rewrite Nat.add_0_r, app_nil_r, app_nil_r. auto.
  - simpl frameLoop.
    destruct (renderSceneFrame_quiescent scene (frameProgress fs frame) Hg) as [ops Hops].
    destruct w as [sto tr [cw ch cst cstk cp cpnt]]. simpl in Hst, Hstk. subst.
    destruct (Hops cw ch cp cpnt) as [pth' Hr].
    unfold renderFrame at 1. unfold bind at 1. simpl canvas. rewrite Hr.
    unfold bind at 1, canvasToUint8 at 1. simpl. rewrite Hatob.
    unfold bind at 1, writeFile at 1. simpl. rewrite Hwrite.
    unfold bind at 1, onStage at 1, emit at 1. simpl.
    match goal with
    | |- exists w', frameLoop ?e ?sc ?f ?t ?fr ?l ?i ?wr0 ?w0 = _ /\ _ =>
        destruct (IH fr i wr0 w0 eq_refl eq_refl) as (w' & H1 & H2 & H3 & H4)
    end.
    exists w'. rewrite H1. split; [|split; [|split]]; auto.
    + f_equal. f_equal. f_equal; [lia|]. simpl. now rewrite <- app_assoc.
    + rewrite H2. simpl. rewrite <- !app_assoc. reflexivity.
Qed.

Lemma sceneLoop_ok env tf scenes fi wr w :
  atob_ok env = true -> (forall n, writeFile_ok env n = true) ->
  Forall (fun s => findGradient (gradientId s) <> None) scenes ->
  cstate (canvas w) = defaultDrawState -> cstack (canvas w) = [] ->
  exists w',
    sceneLoop env tf scenes fi wr w =
      (Ok (fi + frameCount scenes, wr ++ map frameName (seq fi (frameCount scenes)))%nat, w') /\
    trace w' = trace w ++ sceneEvents tf scenes fi /\
    cstate (canvas w') = defaultDrawState /\ cstack (canvas w') = [].
Proof.
  intros Hatob Hwrite. revert fi wr w.
  induction scenes as [|sc rest IH]; intros fi wr w Hg Hst Hstk.
  - exists w. simpl. unfold frameCount. simpl. rewrite Nat.add_0_r, !app_nil_r. auto.
  - inversion Hg as [|? ? Hsc Hrest]; subst. simpl sceneLoop.
    destruct (frameLoop_ok env sc (framesForScene sc) tf 0 (Z.to_nat (framesForScene sc))
                fi wr w Hatob Hwrite Hsc Hst Hstk) as (w1 & E1 & T1 & S1 & K1).
    rewrite (bind_Ok _ _ _ _ _ E1).
    destruct (IH (fi + Z.to_nat (framesForScene sc))%nat
                (wr ++ map frameName (seq fi (Z.to_nat (framesForScene sc)))) w1
                Hrest S1 K1) as (w2 & E2 & T2 & S2 & K2).
    exists w2. rewrite E2. split; [|split; [|split]]; auto.
    + unfold frameCount. simpl. fold (frameCount rest).
      f_equal. f_equal. f_equal; [lia|].
      rewrite <- app_assoc, seq_app, map_app. reflexivity.
    + rewrite T2, T1. simpl. rewrite <- app_assoc. reflexivity.
Qed.

Lemma Quiet_bind {A B} f (m : M A) (k : A -> M B) :
  Quiet f m -> (forall a, Quiet f (k a)) -> Quiet f (bind m k).
Proof.
  intros Hm Hk w. unfold bind. specialize (Hm w).
  destruct (m w) as [[a|e] w1]; simpl in *; [rewrite Hk|]; exact Hm.
Qed.

Lemma Quiet_ret {A} f (a : A) : Quiet f (ret a).
Proof. intros w. reflexivity. Qed.

Lemma Quiet_throw {A} f msg : Quiet f (@throw A msg).
Proof. intros w. reflexivity. Qed.

Lemma Quiet_ignore f m : Quiet f m -> Quiet f (ignore m).
Proof. intros Hm w. unfold ignore. specialize (Hm w). destruct (m w). exact Hm. Qed.

Lemma Quiet_try_finally {A} f (m : M A) fin :
  Quiet f m -> Quiet f fin -> Quiet f (try_finally m fin).
Proof.
  intros Hm Hf w. unfold try_finally. specialize (Hm w).
  destruct (m w) as [r w1]. specialize (Hf w1). destruct (fin w1) as [[]]; simpl in *; congruence.
Qed.

Lemma Quiet_forEach f files (g : string -> M unit) :
  (forall x, Quiet f (g x)) -> Quiet f (forEach_ files g).
Proof.
  intros Hg. induction files as [|x rest IH]; simpl.
  - apply Quiet_ret.
  - apply Quiet_bind; auto.
Qed.

Lemma filter_snoc_false (f : Event -> bool) (l : list Event) (e : Event) : f e = false -> filter f (l ++ [e]) = filter f l.
Proof. intros He. now rewrite filter_app; cbn [filter]; rewrite He, app_nil_r. Qed.

Lemma Quiet_emit f e : f e = false -> Quiet f (emit e).
Proof. intros He w. apply filter_snoc_false, He. Qed.

Lemma Quiet_primitives f env :
  (forall e, muxEvent e = true -> f e = false) ->
  Quiet f (exec env encodeArgs) /\ Quiet f (readFile env "output.mp4") /\
  (forall n, Quiet f (deleteFile env n)) /\ (forall st p, Quiet f (onStage st p)).
Proof.
  intros Hf. split; [|split; [|split]].
  - intros w. unfold exec. destruct (exec_ok env); cbn [snd trace];
      apply filter_snoc_false, Hf; reflexivity.
  - intros w. unfold readFile. destruct (existsb _ _); cbn [snd trace]; [|reflexivity].
    apply filter_snoc_false, Hf; reflexivity.
  - intros n w. unfold deleteFile. destruct (_ && _); cbn [snd trace]; [|reflexivity].
    apply filter_snoc_false, Hf; reflexivity.
  - intros st p. apply Quiet_emit, Hf. reflexivity.
Qed.

(** Everything [synthesizeVideo] does after the frame loop. *)
Lemma Quiet_after_frames f env writtenFiles :
  (forall e, muxEvent e = true -> f e = false) ->
  Quiet f
    (let* _ := onStage muxing (1 # 10) in
     let* data :=
       try_finally
         (let* _ := exec env encodeArgs in
          let* _ := onStage muxing (9 # 10) in
          let* fileData := readFile env "output.mp4" in
          match fileData with
          | TextData => throw "Unexpected encoder output format."
          | Uint8Array =>
              let* _ := onStage muxing 1 in
              ret (Some fileData)
          end)
         (cleanupFfmpeg env writtenFiles) in
     match data with
     | None => throw "Failed to read rendered video output."
     | Some _ => ret (mkBlob "video/mp4")
     end).
Proof.
  intros Hf. destruct (Quiet_primitives f env Hf) as (Hx & Hr & Hd & Ho).
  apply Quiet_bind; [apply Ho|intros _].
  apply Quiet_bind.
  - apply Quiet_try_finally.
    + apply Quiet_bind; [exact Hx|intros _].
      apply Quiet_bind; [apply Ho|intros _].
      apply Quiet_bind; [exact Hr|intros []].
      * apply Quiet_bind; [apply Ho|intros _]. apply Quiet_ret.
      * apply Quiet_throw.
    + unfold cleanupFfmpeg. apply Quiet_bind.
      * apply Quiet_forEach. intros x. apply Quiet_ignore, Hd.
      * intros _. apply Quiet_ignore, Hd.
  - intros [d|]; [apply Quiet_ret|apply Quiet_throw].
Qed.

Lemma loadEncoder_ok env w :
  getFFmpeg_ok env = true ->
  loadEncoder env w =
  (Ok tt, mkWorld (storage w)
            (trace w ++ [OnStage loading (1 # 10); EncoderLoaded; OnStage loading 1])
            (canvas w)).
Proof.
  intros H. unfold loadEncoder, bind, onStage, emit, getFFmpeg. rewrite H.
  cbn. now rewrite <- !app_assoc.
Qed.

Lemma getContext_ok env w : context2d_ok env = true -> getContext env w = (Ok tt, w).
Proof. intros H. unfold getContext. now rewrite H. Qed.

(** The trace of an attempt whose frame stage cannot fail: the frame
    stage's events, followed by events of the muxing and cleanup steps. *)
Lemma synthesizeVideo_frames f env scenes w :
  framesEnvOk env ->
  Forall (fun s => findGradient (gradientId s) <> None) scenes ->
  scenes <> [] ->
  (forall e, muxEvent e = true -> f e = false) ->
  f EncoderLoaded = false ->
  filter f (trace (snd (synthesizeVideo env scenes w))) =
  filter f (trace w) ++ filter f (sceneEvents (totalFramesFor scenes) scenes 0).
Proof.
  intros (Hload & Hctx & Hatob & Hwrite) Hg Hne Hf HL.
  unfold synthesizeVideo.
  destruct (Nat.eqb_spec (List.length scenes) 0) as [Hl|_].
  { destruct scenes; [congruence|discriminate]. }
  rewrite (bind_Ok _ _ _ _ _ (loadEncoder_ok env w Hload)).
  rewrite (bind_Ok createCanvas _ _ tt _ eq_refl).
  rewrite (bind_Ok _ _ _ _ _ (getContext_ok env _ Hctx)).
  match goal with
  | |- context [bind (sceneLoop _ _ _ 0 []) _ ?w0] =>
      destruct (sceneLoop_ok env (totalFramesFor scenes) scenes 0 [] w0 Hatob Hwrite Hg
                  eq_refl eq_refl) as (w1 & E1 & T1 & _ & _)
  end.
  rewrite (bind_Ok _ _ _ _ _ E1).
  rewrite (Quiet_after_frames f env _ Hf w1), T1. cbn [trace].
  rewrite !filter_app. cbn [filter].
  rewrite (Hf (OnStage loading (1 # 10)) eq_refl), HL, (Hf (OnStage loading 1) eq_refl).
  now rewrite app_nil_r.
Qed.

(** ** Frames rendered and files written *)

Lemma frameEvents_rendered scene fs tf frame left fi :
  filter isRendered (frameEvents scene fs tf frame left fi) =
  map (fun k => RenderedFrame scene (frameProgress fs k)) (seq frame left).
Proof.
  revert frame fi. induction left as [|left IH]; intros frame fi; simpl; f_equal; auto.
Qed.

Lemma frameEvents_written scene fs tf frame left fi :
  filter isWrite (frameEvents scene fs tf frame left fi) =
  map (fun i => WroteFile (frameName i)) (seq fi left).
Proof.
  revert frame fi. induction left as [|left IH]; intros frame fi; simpl; f_equal; auto.
Qed.

Lemma sceneEvents_rendered tf scenes fi :
  filter isRendered (sceneEvents tf scenes fi) =
  flat_map (fun s => map (fun k => RenderedFrame s (frameProgress (framesForScene s) k))
                         (seq 0 (Z.to_nat (framesForScene s)))) scenes.
Proof.
  revert fi. induction scenes as [|s rest IH]; intros fi; simpl; [reflexivity|].
  now rewrite filter_app, frameEvents_rendered, IH.
Qed.

Lemma sceneEvents_written tf scenes fi :
  filter isWrite (sceneEvents tf scenes fi) =
  map (fun i => WroteFile (frameName i)) (seq fi (frameCount scenes)).
Proof.
  revert fi. induction scenes as [|s rest IH]; intros fi; simpl; [reflexivity|].
  rewrite filter_app, frameEvents_written, IH. unfold frameCount. simpl.
  now rewrite seq_app, map_app.
Qed.

Lemma framesForScene_compat s s' :
  duration s == duration s' -> framesForScene s = framesForScene s'.
Proof.
  intros H. unfold framesForScene, Math_round. f_equal. apply Qfloor_comp.
  now rewrite H.
Qed.

(** [C3] Under an environment in which the frame stage cannot fail and a
    non-empty scene list whose gradients all resolve, the frames rendered by
    [synthesizeVideo] are, scene by scene, [framesForScene s] frames of [s]
    with [framesForScene s = max(1, round(duration s * 24))].  Duration 2
    gives 48 frames, duration 8 gives 192, and durations 4, 3.5, 3 give 96,
    84 and 72 frames, a total duration of 10.5 and 252 frames. *)
Theorem frames_per_scene :
  (forall env scenes w,
     framesEnvOk env ->
     Forall (fun s => findGradient (gradientId s) <> None) scenes ->
     scenes <> [] ->
     filter isRendered (trace (snd (synthesizeVideo env scenes w))) =
     filter isRendered (trace w) ++
     flat_map (fun s => map (fun k => RenderedFrame s (frameProgress (framesForScene s) k))
                            (seq 0 (Z.to_nat (framesForScene s)))) scenes) /\
  (forall s, framesForScene s = Z.max 1 (Math_round (duration s * 24))) /\
  (forall s, duration s == 2 -> framesForScene s = 48%Z) /\
  (forall s, duration s == 8 -> framesForScene s = 192%Z) /\
  (forall s1 s2 s3,
     duration s1 == 4 -> duration s2 == 7 # 2 -> duration s3 == 3 ->
     map framesForScene [s1; s2; s3] = [96; 84; 72]%Z /\
     totalDurationForScenes [s1; s2; s3] == 21 # 2 /\
     frameCount [s1; s2; s3] = 252%nat /\
     totalFramesFor [s1; s2; s3] = 252%Z).
Proof.
  split; [|split; [|split; [|split]]].
  - intros env scenes w Henv Hg Hne.
    rewrite (synthesizeVideo_frames isRendered env scenes w Henv Hg Hne).
    + now rewrite sceneEvents_rendered.
    + intros [] H; try discriminate; reflexivity.
    + reflexivity.
  - intros s. reflexivity.
  - intros s H. rewrite (framesForScene_compat s (sampleScene 2 "") H). reflexivity.
  - intros s H. rewrite (framesForScene_compat s (sampleScene 8 "") H). reflexivity.
  - intros s1 s2 s3 H1 H2 H3.
    assert (Htot : totalDurationForScenes [s1; s2; s3] == 21 # 2).
    { unfold totalDurationForScenes. simpl. rewrite H1, H2, H3. reflexivity. }
    split; [|split; [exact Htot|split]].
    + simpl. rewrite (framesForScene_compat s1 (sampleScene 4 "") H1),
        (framesForScene_compat s2 (sampleScene (7 # 2) "") H2),
        (framesForScene_compat s3 (sampleScene 3 "") H3). reflexivity.
    + unfold frameCount. simpl.
      rewrite (framesForScene_compat s1 (sampleScene 4 "") H1),
        (framesForScene_compat s2 (sampleScene (7 # 2) "") H2),
        (framesForScene_compat s3 (sampleScene 3 "") H3). reflexivity.
    + unfold totalFramesFor, Math_round.
      rewrite (Qfloor_comp _ ((21 # 2) * inject_Z FPS + (1 # 2))); [reflexivity|].
      now rewrite Htot.
Qed.

Lemma framesForScene_le s : duration s <= MAX_DURATION -> (framesForScene s <= 192)%Z.
Proof.
  intros H. unfold framesForScene, Math_round.
  assert (Hf : (Qfloor (duration s * inject_Z FPS + (1 # 2)) <= Qfloor (192 + (1 # 2)))%Z).
  { apply Qfloor_resp_le. apply Qplus_le_compat; [|apply Qle_refl].
    change 192 with (MAX_DURATION * inject_Z FPS).
    apply Qmult_le_compat_r; [exact H|discriminate]. }
  change (Qfloor (192 + (1 # 2))) with 192%Z in Hf. lia.
Qed.

Lemma frameCount_le scenes :
  Forall duration_in_bounds scenes ->
  (frameCount scenes <= 192 * List.length scenes)%nat.
Proof.
  induction 1 as [|s rest Hs Hrest IH]; unfold frameCount in *; simpl; [lia|].
  pose proof (framesForScene_le s (proj2 Hs)). lia.
Qed.

Lemma frameName_five_digits_table :
  forallb (fun i => String.eqb (frameName i) ("frame_" ++ fiveDigits i ++ ".png"))
    (seq 0 1152) = true.
Proof. vm_compute. reflexivity. Qed.

(** [C7] Under an environment in which the frame stage cannot fail and a
    non-empty scene list whose gradients all resolve, the files written by
    [synthesizeVideo] are [frameName 0], [frameName 1], ... up to the
    number of frames of the whole list, the sum over scenes of
    [framesForScene]; for scene lists the editor can hold (at most
    [MAX_SCENES] scenes of bounded duration), every such name is [frame_],
    the five-digit zero-padded index, and [.png]. *)
Theorem frame_file_names :
  (forall env scenes w,
     framesEnvOk env ->
     Forall (fun s => findGradient (gradientId s) <> None) scenes ->
     scenes <> [] ->
     filter isWrite (trace (snd (synthesizeVideo env scenes w))) =
     filter isWrite (trace w) ++
     map (fun i => WroteFile (frameName i)) (seq 0 (frameCount scenes))) /\
  (forall scenes,
     frameCount scenes = list_sum (map (fun s => Z.to_nat (framesForScene s)) scenes)) /\
  (forall scenes,
     Forall duration_in_bounds scenes -> (List.length scenes <= MAX_SCENES)%nat ->
     forall i, (i < frameCount scenes)%nat ->
     frameName i = ("frame_" ++ fiveDigits i ++ ".png")%string).
Proof.
  split; [|split].
  - intros env scenes w Henv Hg Hne.
    rewrite (synthesizeVideo_frames isWrite env scenes w Henv Hg Hne).
    + now rewrite sceneEvents_written.
    + intros [] H; try discriminate; reflexivity.
    + reflexivity.
  - intros scenes. reflexivity.
  - intros scenes Hb Hlen i Hi.
    pose proof (frameCount_le scenes Hb) as Hc. unfold MAX_SCENES in Hlen.
    apply String.eqb_eq.
    apply (proj1 (forallb_forall _ _) frameName_five_digits_table).
    apply in_seq. lia.
Qed.

(** ** Word wrapping *)

Lemma string_app_assoc (a b c : string) : ((a ++ b) ++ c)%string = (a ++ (b ++ c))%string.
Proof. induction a as [|ch a IH]; simpl; [reflexivity|now rewrite IH]. Qed.

Lemma string_app_nil_r (a : string) : (a ++ "")%string = a.
Proof. induction a as [|ch a IH]; simpl; [reflexivity|now rewrite IH]. Qed.

Lemma concat_snoc (sep : string) (l : list string) (x : string) :
  String.concat sep (l ++ [x]) =
  match l with [] => x | _ => (String.concat sep l ++ sep ++ x)%string end.
Proof.
  induction l as [|a l IH]; [reflexivity|].
  simpl. destruct l as [|b l].
  - reflexivity.
  - change (String.concat sep ((b :: l) ++ [x])) with (String.concat sep (b :: l ++ [x])) in IH.
    simpl in IH |- *. rewrite IH. now rewrite !string_app_assoc.
Qed.

Lemma split_space_nonnil (s : string) : split_space s <> [].
Proof.
  destruct s as [|ch rest]; simpl; [discriminate|].
  destruct (Ascii.eqb ch " "%char); [discriminate|].
  destruct (split_space rest); discriminate.
Qed.

(** Joining the parts of [text.split(" ")] with spaces gives [text] back. *)
Lemma concat_split_space (s : string) : String.concat " " (split_space s) = s.
Proof.
  induction s as [|ch rest IH]; [reflexivity|].
  simpl. pose proof (split_space_nonnil rest) as Hn.
  destruct (Ascii.eqb ch " "%char) eqn:E.
  - apply Ascii.eqb_eq in E. subst ch.
    destruct (split_space rest) as [|p ps]; [congruence|]. rewrite <- IH. reflexivity.
  - destruct (split_space rest) as [|p ps]; [congruence|]. rewrite <- IH.
    destruct ps as [|q qs]; reflexivity.
Qed.

Lemma is_empty_false (s : string) : s <> EmptyString -> is_empty s = false.
Proof. destruct s; [congruence|reflexivity]. Qed.

Lemma concat_snoc_cons (sep : string) (l : list string) (x : string) :
  l <> [] -> String.concat sep (l ++ [x]) = (String.concat sep l ++ sep ++ x)%string.
Proof. intros H. rewrite concat_snoc. destruct l; [congruence|reflexivity]. Qed.

Lemma string_app_nonempty (a b : string) : is_empty a = false -> is_empty (a ++ b)%string = false.
Proof. destruct a; [discriminate|reflexivity]. Qed.

(** [X1] When no word of [text.split(" ")] is empty (no leading, trailing
    or doubled space), joining the lines of [wrapText] with single spaces
    gives back [text]: wrapping loses and reorders no word. *)
Theorem wrapText_roundtrip (c : Ctx) (text : string) (maxWidth : Q) :
  Forall (fun w => w <> EmptyString) (split_space text) ->
  String.concat " " (wrapText c text maxWidth) = text.
Proof.
  intros Hw. transitivity (String.concat " " (split_space text));
    [|apply concat_split_space].
  revert Hw. unfold wrapText. generalize (split_space text) as ws. intros ws Hw.
  match goal with |- context [fold_left ?f ws ?i] => set (F := f) end.
  assert (Key : forall l, Forall (fun w => w <> EmptyString) l ->
            String.concat " " (fst (fold_left F l ([], ""))
                               ++ (if is_empty (snd (fold_left F l ([], ""))) then []
                                   else [snd (fold_left F l ([], ""))])) =
            String.concat " " l /\
            (l = [] -> fold_left F l ([], "") = ([], "")) /\
            (l <> [] -> is_empty (snd (fold_left F l ([], ""))) = false)).
  { intros l. induction l as [|w l IH] using rev_ind; intros Hl.
    - split; [reflexivity|split; [reflexivity|congruence]].
    - apply Forall_app in Hl as [Hl Hw1]. inversion Hw1 as [|? ? Hwne _]; subst.
      destruct (IH Hl) as (HJ & Hnil & Hne). rewrite fold_left_app. simpl fold_left.
      destruct (fold_left F l ([], "")) as [lines cur] eqn:Est. simpl in HJ, Hnil, Hne.
      pose proof (is_empty_false w Hwne) as Ew.
      assert (Hsnoc : l ++ [w] <> []) by (destruct l; discriminate).
      split; [|split; [intros H; exfalso; exact (Hsnoc H)|intros _]].
      + destruct (is_empty cur) eqn:Ec.
        * assert (El : l = []).
          { destruct l as [|x l0]; [reflexivity|].
            assert (Hx : x :: l0 <> []) by discriminate.
            specialize (Hne Hx). congruence. }
          subst l. injection (Hnil eq_refl) as -> ->.
          unfold F. simpl. rewrite andb_false_r. simpl. now rewrite Ew.
        * assert (Hl0 : l <> []) by (intros ->; injection (Hnil eq_refl) as _ ->; discriminate).
          rewrite (concat_snoc_cons _ _ _ Hl0), <- HJ.
          unfold F. rewrite Ec. simpl negb. rewrite andb_true_r.
          destruct (Qgtb _ maxWidth); simpl.
          -- rewrite Ew. apply concat_snoc_cons. destruct lines; discriminate.
          -- rewrite (string_app_nonempty _ _ Ec).
             rewrite !concat_snoc. destruct lines; [reflexivity|].
             now rewrite !string_app_assoc.
      + destruct (is_empty cur) eqn:Ec; unfold F; rewrite Ec; simpl negb;
          [rewrite andb_false_r; simpl; exact Ew|rewrite andb_true_r].
        destruct (Qgtb _ maxWidth); simpl; [exact Ew|].
        now apply string_app_nonempty. }
  destruct (Key ws Hw) as (HJ & _ & _).
  destruct (fold_left F ws ([], "")) as [lines cur]. simpl in HJ.
  rewrite <- HJ. destruct (is_empty cur); simpl; [now rewrite app_nil_r|reflexivity].
Qed.

(** [X2] Every line [wrapText] returns is non-empty, and it either fits:
    its [measureText] width under the context's font is at most
    [maxWidth], or it is a single word of [text.split(" ")] (a word wider
    than the limit is kept whole on its own line). *)
Theorem wrapText_lines (c : Ctx) (text : string) (maxWidth : Q) (line : string) :
  In line (wrapText c text maxWidth) ->
  line <> EmptyString /\
  (measureText (font (cstate c)) line <= maxWidth \/ In line (split_space text)).
Proof.
  intros Hin.
  set (Good := fun l => l <> EmptyString /\
                 (measureText (font (cstate c)) l <= maxWidth \/ In l (split_space text))).
  change (Good line).
  assert (HW : forall w, In w (split_space text) -> is_empty w = true \/ Good w).
  { intros w Hw. destruct w as [|ch w']; [now left|right].
    split; [discriminate|now right]. }
  revert Hin HW. unfold wrapText. generalize (split_space text) as ws. intros ws Hin HW.
  match goal with H : context [fold_left ?f ws ?i] |- _ => set (F := f) in H end.
  assert (Key : forall l, (forall w, In w l -> is_empty w = true \/ Good w) ->
            Forall Good (fst (fold_left F l ([], ""))) /\
            (is_empty (snd (fold_left F l ([], ""))) = true \/
             Good (snd (fold_left F l ([], ""))))).
  { intros l. induction l as [|w l IH] using rev_ind; intros Hl.
    - split; [constructor|now left].
    - destruct IH as (Hlines & Hcur).
      { intros x Hx. apply Hl, in_or_app. now left. }
      assert (Hw : is_empty w = true \/ Good w) by (apply Hl, in_or_app; right; now left).
      rewrite fold_left_app. simpl fold_left.
      destruct (fold_left F l ([], "")) as [lines cur]. simpl in Hlines, Hcur.
      unfold F. destruct (is_empty cur) eqn:Ec; simpl negb.
      + rewrite andb_false_r. simpl. now split.
      + rewrite andb_true_r.
        destruct Hcur as [Hc|Hc]; [congruence|].
        destruct (Qgtb _ maxWidth) eqn:Eg; simpl.
        * split; [apply Forall_app; split; [exact Hlines|now constructor]|exact Hw].
        * split; [exact Hlines|right]. split.
          -- destruct cur; discriminate.
          -- left. unfold Qgtb in Eg. apply Qle_bool_imp_le.
             now destruct (Qle_bool _ _). }
  destruct (Key ws HW) as [Hlines Hcur].
  destruct (fold_left F ws ([], "")) as [lines cur]. simpl in Hlines, Hcur.
  destruct (is_empty cur) eqn:Ec; simpl in Hin.
  - exact (proj1 (Forall_forall Good lines) Hlines line Hin).
  - destruct Hcur as [Hc|Hc]; [congruence|].
    apply in_app_or in Hin as [Hin|[<-|[]]];
      [exact (proj1 (Forall_forall Good lines) Hlines line Hin)|exact Hc].
Qed.

(** ** Easing curves *)

Lemma cube_mono (a b : Q) : 0 <= a -> a <= b -> a * a * a <= b * b * b.
Proof.
  intros Ha Hab.
  assert (Hb : 0 <= b) by (eapply Qle_trans; eauto).
  assert (H1 : a * a <= b * b) by nra.
  assert (H2 : 0 <= a * a) by nra.
  nra.
Qed.

Lemma Qltb_half (v : Q) : Qltb v (1 # 2) = true <-> v < 1 # 2.
Proof.
  unfold Qltb. split; intros H.
  - destruct (Qle_bool (1 # 2) v) eqn:E; [discriminate|].
    apply Qnot_le_lt. intros Hle. apply Qle_bool_iff in Hle. congruence.
  - destruct (Qle_bool (1 # 2) v) eqn:E; [|reflexivity].
    apply Qle_bool_iff in E. exfalso. apply (Qlt_not_le _ _ H E).
Qed.

Lemma easeInOut_cases (v : Q) :
  (v < 1 # 2 /\ easeInOut v = 4 * v * v * v) \/
  (1 # 2 <= v /\ easeInOut v = 1 - ((-2 * v + 2) * (-2 * v + 2) * (-2 * v + 2)) * (1 # 2)).
Proof.
  unfold easeInOut. destruct (Qltb v (1 # 2)) eqn:E.
  - left. split; [now apply Qltb_half|reflexivity].
  - right. split; [|reflexivity].
    apply Qnot_lt_le. intros H. apply Qltb_half in H. congruence.
Qed.

(** [X3] The easing curves [easeInOut], [easeOut] and [easeIn] map
    [[0, 1]] into [[0, 1]], are non-decreasing there, and fix 0 and 1; the
    renderer's text opacity [easeIn(progress)] is therefore a valid alpha
    for every progress in [[0, 1]]. *)
Theorem easing_curves :
  (forall v, 0 <= v <= 1 ->
     (0 <= easeInOut v <= 1) /\ (0 <= easeOut v <= 1) /\ (0 <= easeIn v <= 1)) /\
  (forall v w, 0 <= v -> v <= w -> w <= 1 ->
     easeInOut v <= easeInOut w /\ easeOut v <= easeOut w /\ easeIn v <= easeIn w) /\
  (easeInOut 0 == 0 /\ easeInOut 1 == 1) /\ (easeOut 0 == 0 /\ easeOut 1 == 1) /\
  (easeIn 0 == 0 /\ easeIn 1 == 1).
Proof.
  split; [|split; [|split; [split; reflexivity|split; split; reflexivity]]].
  - intros v [H0 H1]. split; [|split]; unfold easeOut, easeIn.
    + destruct (easeInOut_cases v) as [[Hv ->]|[Hv ->]].
      * pose proof (cube_mono 0 v (Qle_refl 0) H0).
        pose proof (cube_mono v (1 # 2) H0 (Qlt_le_weak _ _ Hv)). nra.
      * assert (Ha : 0 <= -2 * v + 2) by lra.
        pose proof (cube_mono 0 (-2 * v + 2) (Qle_refl 0) Ha).
        assert (Hle : (-2 * v + 2) <= 1) by lra.
        pose proof (cube_mono (-2 * v + 2) 1 Ha Hle). nra.
    + assert (Ha : 0 <= 1 - v) by lra.
      pose proof (cube_mono 0 (1 - v) (Qle_refl 0) Ha).
      assert (Hle : (1 - v) <= 1) by lra.
        pose proof (cube_mono (1 - v) 1 Ha Hle). nra.
    + nra.
  - intros v w H0 Hvw H1. split; [|split]; unfold easeOut, easeIn.
    + destruct (easeInOut_cases v) as [[Hv ->]|[Hv ->]];
        destruct (easeInOut_cases w) as [[Hw ->]|[Hw ->]].
      * pose proof (cube_mono v w H0 Hvw). nra.
      * pose proof (cube_mono v (1 # 2) H0 (Qlt_le_weak _ _ Hv)).
        assert (Ha : 0 <= -2 * w + 2) by lra.
        assert (Hle : (-2 * w + 2) <= 1) by lra.
        pose proof (cube_mono (-2 * w + 2) 1 Ha Hle). nra.
      * exfalso. lra.
      * assert (Ha : 0 <= -2 * w + 2) by lra.
        assert (Hle : (-2 * w + 2) <= (-2 * v + 2)) by lra.
        pose proof (cube_mono (-2 * w + 2) (-2 * v + 2) Ha Hle). nra.
    + assert (Ha : 0 <= 1 - w) by lra.
      assert (Hle : (1 - w) <= (1 - v)) by lra.
        pose proof (cube_mono (1 - w) (1 - v) Ha Hle). nra.
    + nra.
Qed.

(** ** Per-scene frame progress *)

(** [X4] The progress [synthesizeVideo] renders frame [frame] of a scene
    with: for a scene of more than one frame it lies in [[0, 1]], is
    strictly increasing in the frame number, is 0 on the first frame and 1
    on the last; a scene of one frame is rendered at progress 1. *)
Theorem frameProgress_range :
  (forall fs k, (k < Z.to_nat fs)%nat -> 0 <= frameProgress fs k <= 1) /\
  (forall fs, (1 < fs)%Z ->
     frameProgress fs 0 == 0 /\ frameProgress fs (Z.to_nat fs - 1) == 1) /\
  (forall fs k k', (1 < fs)%Z -> (k < k')%nat -> frameProgress fs k < frameProgress fs k') /\
  (forall fs k, (fs <= 1)%Z -> frameProgress fs k = 1).
Proof.
  split; [|split; [|split]].
  - intros fs k Hk. unfold frameProgress.
    destruct (Z.leb_spec fs 1) as [H|H]; [split; discriminate|].
    assert (HD : 0 < inject_Z (fs - 1)) by (unfold Qlt, inject_Z; simpl; lia).
    split.
    + apply Qle_shift_div_l; [exact HD|]. rewrite Qmult_0_l.
      unfold Qle, inject_Z; simpl; lia.
    + apply Qle_shift_div_r; [exact HD|]. rewrite Qmult_1_l.
      rewrite <- Zle_Qle. lia.
  - intros fs H. unfold frameProgress.
    destruct (Z.leb_spec fs 1) as [H'|_]; [lia|].
    assert (HD : ~ inject_Z (fs - 1) == 0).
    { intros E. unfold Qeq, inject_Z in E; simpl in E; lia. }
    split.
    + reflexivity.
    + replace (Z.of_nat (Z.to_nat fs - 1)) with (fs - 1)%Z by lia.
      apply Qmult_inv_r, HD.
  - intros fs k k' H Hk. unfold frameProgress.
    destruct (Z.leb_spec fs 1) as [H'|_]; [lia|].
    assert (HD : 0 < / inject_Z (fs - 1)).
    { apply Qinv_lt_0_compat. unfold Qlt, inject_Z; simpl; lia. }
    unfold Qdiv. apply Qmult_lt_r; [exact HD|].
    rewrite <- Zlt_Qlt. lia.
  - intros fs k H. unfold frameProgress.
    destruct (Z.leb_spec fs 1) as [_|H']; [reflexivity|lia].
Qed.

(** ** Encoder clean-up *)

Lemma filter_filter_and {A} (p q : A -> bool) (l : list A) :
  filter p (filter q l) = filter (fun x => q x && p x) l.
Proof.
  induction l as [|a l IH]; simpl; [reflexivity|].
  destruct (q a); simpl; [destruct (p a); simpl|]; rewrite IH; reflexivity.
Qed.

Lemma filter_true_id {A} (p : A -> bool) (l : list A) :
  (forall x, In x l -> p x = true) -> filter p l = l.
Proof.
  induction l as [|a l IH]; simpl; intros H; [reflexivity|].
  rewrite (H a (or_introl eq_refl)), IH; [reflexivity|].
  intros x Hx. apply H. right. exact Hx.
Qed.

Lemma ignore_deleteFile_spec (env : Env) (n : string) (w : World) :
  ignore (deleteFile env n) w =
  (Ok tt, mkWorld (filter (fun m => negb (deleteFile_ok env m && String.eqb m n)) (storage w))
            (trace w ++ map DeletedFile
                          (if deleteFile_ok env n && existsb (String.eqb n) (storage w)
                           then [n] else []))
            (canvas w)).
Proof.
  unfold ignore, deleteFile.
  destruct (deleteFile_ok env n) eqn:Hok; [destruct (existsb (String.eqb n) (storage w)) eqn:He|];
    simpl.
  - f_equal. f_equal. unfold remove_name. apply filter_ext_in. intros m _.
    destruct (String.eqb_spec m n) as [->|Hne]; [rewrite Hok; reflexivity|].
    rewrite andb_false_r. reflexivity.
  - destruct w as [st tr cv]. simpl. rewrite app_nil_r. f_equal. f_equal.
    symmetry. apply filter_true_id. intros m Hm.
    destruct (String.eqb_spec m n) as [->|Hne].
    + exfalso. simpl in He. rewrite <- Bool.not_true_iff_false in He. apply He.
      apply existsb_exists. exists n. split; [exact Hm|apply String.eqb_refl].
    + rewrite andb_false_r. reflexivity.
  - destruct w as [st tr cv]. simpl. rewrite app_nil_r. f_equal. f_equal.
    symmetry. apply filter_true_id. intros m Hm.
    destruct (String.eqb_spec m n) as [->|Hne]; [rewrite Hok; reflexivity|].
    rewrite andb_false_r. reflexivity.
Qed.

Lemma forEach_delete_spec (env : Env) (files : list string) (w : World) :
  fst (forEach_ files (fun file => ignore (deleteFile env file)) w) = Ok tt /\
  storage (snd (forEach_ files (fun file => ignore (deleteFile env file)) w)) =
    filter (fun m => negb (deleteFile_ok env m && existsb (String.eqb m) files)) (storage w) /\
  canvas (snd (forEach_ files (fun file => ignore (deleteFile env file)) w)) = canvas w /\
  exists ds, trace (snd (forEach_ files (fun file => ignore (deleteFile env file)) w)) =
             trace w ++ map DeletedFile ds.
Proof.
  revert w. induction files as [|n files IH]; intros w.
  - simpl. split; [reflexivity|]. split; [|split; [reflexivity|exists []; rewrite app_nil_r; reflexivity]].
    symmetry. apply filter_true_id. intros m _. rewrite andb_false_r. reflexivity.
  - cbn [forEach_]. unfold bind. rewrite ignore_deleteFile_spec. cbv beta iota.
    destruct (IH (mkWorld (filter (fun m => negb (deleteFile_ok env m && String.eqb m n)) (storage w))
            (trace w ++ map DeletedFile
                          (if deleteFile_ok env n && existsb (String.eqb n) (storage w)
                           then [n] else []))
            (canvas w))) as (H1 & H2 & H3 & ds & H4).
    split; [exact H1|]. split; [|split; [rewrite H3; reflexivity|]].
    + rewrite H2. simpl. rewrite filter_filter_and. apply filter_ext. intros m.
      simpl. destruct (deleteFile_ok env m); simpl; [|reflexivity].
      destruct (String.eqb m n); reflexivity.
    + rewrite H4. simpl. rewrite <- app_assoc, <- map_app. eexists. reflexivity.
Qed.

Lemma cleanupFfmpeg_spec (env : Env) (files : list string) (w : World) :
  fst (cleanupFfmpeg env files w) = Ok tt /\
  storage (snd (cleanupFfmpeg env files w)) =
    filter (fun m => negb (deleteFile_ok env m &&
                           existsb (String.eqb m) (app files ["output.mp4"])))
           (storage w) /\
  canvas (snd (cleanupFfmpeg env files w)) = canvas w /\
  exists ds, trace (snd (cleanupFfmpeg env files w)) = app (trace w) (map DeletedFile ds).
Proof.
  unfold cleanupFfmpeg, bind.
  destruct (forEach_delete_spec env files w) as (H1 & H2 & H3 & ds & H4).
  destruct (forEach_ files (fun file => ignore (deleteFile env file)) w) as [r w1].
  simpl in H1, H2, H3, H4. subst r. rewrite ignore_deleteFile_spec. simpl.
  split; [reflexivity|]. split; [|split; [exact H3|]].
  - rewrite H2, filter_filter_and. apply filter_ext. intros m.
    rewrite existsb_app. simpl.
    destruct (deleteFile_ok env m); simpl; [|reflexivity].
    destruct (existsb (String.eqb m) files); simpl; [reflexivity|].
    rewrite orb_false_r. reflexivity.
  - rewrite H4, <- app_assoc, <- map_app. eexists. reflexivity.
Qed.

(** [X5] [cleanupFfmpeg] never fails, whatever [deleteFile] does: it
    removes from the encoder's storage exactly the files that are among
    the given names or ["output.mp4"] and whose deletion succeeds, keeps
    the canvas, and only adds [DeletedFile] events to the trace. *)
Theorem cleanupFfmpeg_effect (env : Env) (files : list string) (w : World) :
  fst (cleanupFfmpeg env files w) = Ok tt /\
  storage (snd (cleanupFfmpeg env files w)) =
    filter (fun m => negb (deleteFile_ok env m &&
                           existsb (String.eqb m) (app files ["output.mp4"])))
           (storage w) /\
  canvas (snd (cleanupFfmpeg env files w)) = canvas w /\
  exists ds, trace (snd (cleanupFfmpeg env files w)) = app (trace w) (map DeletedFile ds).
Proof. exact (cleanupFfmpeg_spec env files w). Qed.

(** ** Storage through an export attempt *)

Lemma renderFrame_storage scene p w a w1 :
  renderFrame scene p w = (Ok a, w1) -> storage w1 = storage w.
Proof.
  unfold renderFrame. destruct (renderSceneFrame (canvas w) scene p) as [[[]|e] c'];
    intros H; inversion H; reflexivity.
Qed.

Lemma canvasToUint8_storage env w a w1 :
  canvasToUint8 env w = (Ok a, w1) -> w1 = w.
Proof. unfold canvasToUint8. destruct (atob_ok env); intros H; inversion H; reflexivity. Qed.

Lemma writeFile_storage env n b w a w1 :
  writeFile env n b w = (Ok a, w1) -> storage w1 = add_name n (storage w).
Proof. unfold writeFile. destruct (writeFile_ok env n); intros H; inversion H; reflexivity. Qed.

Lemma onStage_storage st p w a w1 :
  onStage st p w = (Ok a, w1) -> storage w1 = storage w.
Proof. unfold onStage, emit. intros H. inversion H. reflexivity. Qed.

Lemma frameLoop_Ok_storage env scene fs tf frame left fi wr w fi' wr' w' :
  frameLoop env scene fs tf frame left fi wr w = (Ok (fi', wr'), w') ->
  exists new, wr' = wr ++ new /\
              storage w' = fold_left (fun st n => add_name n st) new (storage w).
Proof.
  revert frame fi wr w. induction left as [|left IH]; intros frame fi wr w H.
  - simpl in H. inversion H. exists []. rewrite app_nil_r. auto.
  - simpl in H.
    apply bind_Ok_inv in H as (a1 & w1 & H1 & H).
    apply bind_Ok_inv in H as (a2 & w2 & H2 & H).
    apply bind_Ok_inv in H as (a3 & w3 & H3 & H).
    apply bind_Ok_inv in H as (a4 & w4 & H4 & H).
    destruct (IH _ _ _ _ H) as (new & E1 & E2).
    exists (frameName fi :: new). rewrite E1, <- app_assoc. split; [reflexivity|].
    rewrite E2, (onStage_storage _ _ _ _ _ H4), (writeFile_storage _ _ _ _ _ _ H3).
    rewrite (canvasToUint8_storage _ _ _ _ H2), (renderFrame_storage _ _ _ _ _ H1).
    reflexivity.
Qed.

Lemma sceneLoop_Ok_storage env tf scenes fi wr w fi' wr' w' :
  sceneLoop env tf scenes fi wr w = (Ok (fi', wr'), w') ->
  exists new, wr' = wr ++ new /\
              storage w' = fold_left (fun st n => add_name n st) new (storage w).
Proof.
  revert fi wr w. induction scenes as [|sc rest IH]; intros fi wr w H.
  - simpl in H. inversion H. exists []. rewrite app_nil_r. auto.
  - simpl in H. apply bind_Ok_inv in H as ([fi1 wr1] & w1 & H1 & H).
    destruct (frameLoop_Ok_storage _ _ _ _ _ _ _ _ _ _ _ _ H1) as (n1 & E1 & S1).
    destruct (IH _ _ _ H) as (n2 & E2 & S2).
    exists (n1 ++ n2). rewrite E2, E1, app_assoc. split; [reflexivity|].
    rewrite S2, S1, fold_left_app. reflexivity.
Qed.

(** An attempt whose frame stage cannot fail reaches the steps after the
    frame loop with every frame file written. *)
Lemma synthesizeVideo_split env scenes w :
  framesEnvOk env ->
  Forall (fun s => findGradient (gradientId s) <> None) scenes ->
  scenes <> [] ->
  exists w1,
    storage w1 = fold_left (fun st n => add_name n st)
                   (map frameName (seq 0 (frameCount scenes))) (storage w) /\
    trace w1 = trace w ++ [OnStage loading (1 # 10); EncoderLoaded; OnStage loading 1] ++
               sceneEvents (totalFramesFor scenes) scenes 0 /\
    synthesizeVideo env scenes w =
      afterFrames env (map frameName (seq 0 (frameCount scenes))) w1.
Proof.
  intros (Hload & Hctx & Hatob & Hwrite) Hg Hne.
  unfold synthesizeVideo.
  destruct (Nat.eqb_spec (List.length scenes) 0) as [Hl|_].
  { destruct scenes; [congruence|discriminate]. }
  rewrite (bind_Ok _ _ _ _ _ (loadEncoder_ok env w Hload)).
  rewrite (bind_Ok createCanvas _ _ tt _ eq_refl).
  rewrite (bind_Ok _ _ _ _ _ (getContext_ok env _ Hctx)).
  match goal with
  | |- context [bind (sceneLoop _ _ _ 0 []) _ ?w0] =>
      destruct (sceneLoop_ok env (totalFramesFor scenes) scenes 0 [] w0 Hatob Hwrite Hg
                  eq_refl eq_refl) as (w1 & E1 & T1 & _ & _)
  end.
  destruct (sceneLoop_Ok_storage _ _ _ _ _ _ _ _ _ E1) as (new & En & Sn).
  simpl in En. subst new. simpl in Sn.
  exists w1. split; [exact Sn|]. split; [rewrite T1; simpl; rewrite <- app_assoc; reflexivity|].
  rewrite (bind_Ok _ _ _ _ _ E1). reflexivity.
Qed.

Lemma existsb_add_name n s : existsb (String.eqb n) (add_name n s) = true.
Proof.
  unfold add_name. destruct (existsb (String.eqb n) s) eqn:E; [exact E|].
  rewrite existsb_app. simpl. rewrite String.eqb_refl, orb_true_r. reflexivity.
Qed.

(** The steps after the frame loop: the outcome is decided by [exec] and
    by the type of the data read back, and the clean-up always runs. *)
Lemma afterFrames_spec env files w1 :
  fst (afterFrames env files w1) =
    (if exec_ok env
     then if readFile_uint8 env then Ok (mkBlob "video/mp4")
          else Throw "Unexpected encoder output format."
     else Throw "exec failed") /\
  storage (snd (afterFrames env files w1)) =
    filter (fun m => negb (deleteFile_ok env m &&
                           existsb (String.eqb m) (files ++ ["output.mp4"])))
           (if exec_ok env then add_name "output.mp4" (storage w1) else storage w1).
Proof.
  unfold afterFrames, try_finally, onStage, emit, bind, exec, readFile, ret, throw.
  cbn [storage trace canvas].
  destruct (exec_ok env).
  - cbn [storage trace canvas]. rewrite existsb_add_name.
    destruct (readFile_uint8 env);
    match goal with
    | |- context [cleanupFfmpeg env files ?W] =>
        destruct (cleanupFfmpeg_spec env files W) as (C1 & C2 & _);
        destruct (cleanupFfmpeg env files W) as [rc wc]
    end; simpl in C1, C2; subst rc; simpl; split; try reflexivity; exact C2.
  - match goal with
    | |- context [cleanupFfmpeg env files ?W] =>
        destruct (cleanupFfmpeg_spec env files W) as (C1 & C2 & _);
        destruct (cleanupFfmpeg env files W) as [rc wc]
    end; simpl in C1, C2; subst rc; simpl; split; try reflexivity; exact C2.
Qed.

Lemma filter_keep_add_name (names : list string) (n : string) (st : list string) :
  In n names -> filter (keepFile names) (add_name n st) = filter (keepFile names) st.
Proof.
  intros Hn. unfold add_name. destruct (existsb (String.eqb n) st); [reflexivity|].
  assert (Hk : keepFile names n = false).
  { unfold keepFile. replace (existsb (String.eqb n) names) with true; [reflexivity|].
    symmetry. apply existsb_exists. exists n. split; [exact Hn|apply String.eqb_refl]. }
  rewrite filter_app. simpl. rewrite Hk. apply app_nil_r.
Qed.

Lemma filter_keep_fold (names new : list string) (st : list string) :
  (forall n, In n new -> In n names) ->
  filter (keepFile names) (fold_left (fun st n => add_name n st) new st) =
  filter (keepFile names) st.
Proof.
  revert st. induction new as [|n new IH]; intros st H; [reflexivity|].
  simpl. rewrite IH.
  - apply filter_keep_add_name. apply H. left. reflexivity.
  - intros m Hm. apply H. right. exact Hm.
Qed.

(** [X6] When the frame stage cannot fail (the encoder loads, a 2D context
    and base64 decoding are available, every frame write succeeds, every
    scene's gradient resolves) and there is at least one scene, the outcome
    of [synthesizeVideo] is decided by the encoder: an MP4 blob when [exec]
    succeeds and the data read back is a [Uint8Array], the error
    "Unexpected encoder output format." when it is a string, and an error
    when [exec] fails. *)
Theorem synthesizeVideo_outcome (env : Env) (scenes : list Scene) (w : World) :
  framesEnvOk env ->
  Forall (fun s => findGradient (gradientId s) <> None) scenes ->
  scenes <> [] ->
  (exec_ok env = true -> readFile_uint8 env = true ->
     fst (synthesizeVideo env scenes w) = Ok (mkBlob "video/mp4")) /\
  (exec_ok env = true -> readFile_uint8 env = false ->
     fst (synthesizeVideo env scenes w) = Throw "Unexpected encoder output format.") /\
  (exec_ok env = false -> exists e, fst (synthesizeVideo env scenes w) = Throw e).
Proof.
  intros Henv Hg Hne.
  destruct (synthesizeVideo_split env scenes w Henv Hg Hne) as (w1 & _ & _ & E).
  rewrite E.
  destruct (afterFrames_spec env (map frameName (seq 0 (frameCount scenes))) w1) as [R _].
  rewrite R. split; [|split].
  - intros -> ->. reflexivity.
  - intros -> ->. reflexivity.
  - intros ->. eexists. reflexivity.
Qed.

(** [X7] Under the same conditions, and when every [deleteFile] succeeds,
    an attempt leaves the encoder's storage as it found it apart from the
    frame files it wrote and ["output.mp4"], which it removes: whether
    [exec] fails or not and whatever the data read back. *)
Theorem synthesizeVideo_storage (env : Env) (scenes : list Scene) (w : World) :
  framesEnvOk env ->
  Forall (fun s => findGradient (gradientId s) <> None) scenes ->
  scenes <> [] ->
  (forall n, deleteFile_ok env n = true) ->
  storage (snd (synthesizeVideo env scenes w)) =
  filter (keepFile (map frameName (seq 0 (frameCount scenes)) ++ ["output.mp4"]))
         (storage w).
Proof.
  intros Henv Hg Hne Hdel.
  destruct (synthesizeVideo_split env scenes w Henv Hg Hne) as (w1 & S1 & _ & E).
  rewrite E.
  destruct (afterFrames_spec env (map frameName (seq 0 (frameCount scenes))) w1) as [_ St].
  rewrite St.
  transitivity (filter (keepFile (map frameName (seq 0 (frameCount scenes)) ++ ["output.mp4"]))
                       (if exec_ok env then add_name "output.mp4" (storage w1) else storage w1)).
  { apply filter_ext. intros m. rewrite Hdel. reflexivity. }
  assert (Hin : forall n, In n (map frameName (seq 0 (frameCount scenes))) ->
                          In n (map frameName (seq 0 (frameCount scenes)) ++ ["output.mp4"])).
  { intros n Hn. apply in_or_app. left. exact Hn. }
  destruct (exec_ok env).
  - rewrite filter_keep_add_name; [|apply in_or_app; right; left; reflexivity].
    rewrite S1. apply filter_keep_fold, Hin.
  - rewrite S1. apply filter_keep_fold, Hin.
Qed.

(** ** Progress shown during an export *)

Lemma fold_total_shift (l : list Scene) (a : Q) :
  fold_left (fun total scene => total + duration scene) l a ==
  a + fold_left (fun total scene => total + duration scene) l 0.
Proof.
  revert a. induction l as [|s l IH]; intros a; simpl; [ring|].
  rewrite (IH (a + duration s)), (IH (0 + duration s)). ring.
Qed.

Lemma totalDuration_cons (s : Scene) (rest : list Scene) :
  totalDurationForScenes (s :: rest) == duration s + totalDurationForScenes rest.
Proof. unfold totalDurationForScenes. simpl. rewrite fold_total_shift. ring. Qed.

Lemma framesForScene_upper (s : Scene) :
  MIN_DURATION <= duration s -> inject_Z (framesForScene s) <= duration s * 24 + (1 # 2).
Proof.
  intros H. unfold MIN_DURATION in H. unfold framesForScene, Math_round.
  change (inject_Z FPS) with 24.
  assert (H1 : (1 <= Qfloor (duration s * 24 + (1 # 2)))%Z).
  { assert (E : Qfloor 1 = 1%Z) by reflexivity. rewrite <- E at 1. apply Qfloor_resp_le. lra. }
  rewrite Z.max_r by exact H1. apply Qfloor_le.
Qed.

Lemma totalFrames_lower (scenes : list Scene) :
  totalDurationForScenes scenes * 24 - (1 # 2) < inject_Z (totalFramesFor scenes).
Proof.
  unfold totalFramesFor, Math_round. change (inject_Z FPS) with 24.
  pose proof (Qlt_floor (totalDurationForScenes scenes * 24 + (1 # 2))) as H.
  rewrite inject_Z_plus in H.
  assert (H2 : inject_Z (Qfloor (totalDurationForScenes scenes * 24 + (1 # 2))) <=
               inject_Z (Z.max 1 (Qfloor (totalDurationForScenes scenes * 24 + (1 # 2))))).
  { rewrite <- Zle_Qle. lia. }
  change (inject_Z 1) with 1 in H. lra.
Qed.

Lemma frames_sum_bound (scenes : list Scene) :
  Forall duration_in_bounds scenes ->
  inject_Z (Z.of_nat (frameCount scenes)) <=
    totalDurationForScenes scenes * 24 + inject_Z (Z.of_nat (List.length scenes)) * (1 # 2) /\
  inject_Z (Z.of_nat (List.length scenes)) * 2 <= totalDurationForScenes scenes.
Proof.
  induction 1 as [|s rest Hs Hrest IH].
  - split; apply Qle_bool_imp_le; reflexivity.
  - destruct IH as [IH1 IH2]. destruct Hs as [Hmin _].
    pose proof (framesForScene_upper s Hmin) as Hf.
    pose proof (framesForScene_pos s) as Hp.
    assert (Hc : Z.of_nat (frameCount (s :: rest)) =
                 (framesForScene s + Z.of_nat (frameCount rest))%Z).
    { unfold frameCount. simpl. fold (frameCount rest). lia. }
    rewrite Hc, inject_Z_plus, totalDuration_cons.
    replace (Z.of_nat (List.length (s :: rest))) with (Z.of_nat (List.length rest) + 1)%Z
      by (simpl; lia).
    rewrite inject_Z_plus. change (inject_Z 1) with 1.
    unfold MIN_DURATION in Hmin. split; lra.
Qed.

(** The frame count exceeds the rounded total by at most a thirtieth. *)
Lemma frame_total_bound (scenes : list Scene) :
  scenes <> [] -> Forall duration_in_bounds scenes ->
  30 * inject_Z (Z.of_nat (frameCount scenes)) <= 31 * inject_Z (totalFramesFor scenes).
Proof.
  intros Hne Hb.
  destruct (frames_sum_bound scenes Hb) as [H1 H2].
  pose proof (totalFrames_lower scenes) as H3.
  assert (Hn : 1 <= inject_Z (Z.of_nat (List.length scenes))).
  { change 1 with (inject_Z 1). rewrite <- Zle_Qle.
    destruct scenes; [congruence|simpl; lia]. }
  lra.
Qed.

Definition framesReport (totalFrames : Z) (i : nat) : Event :=
  OnStage frames (inject_Z (Z.of_nat (S i)) / inject_Z totalFrames).

Lemma frameEvents_stages scene fs tf frame left fi :
  filter isStage (frameEvents scene fs tf frame left fi) =
  map (framesReport tf) (seq fi left).
Proof.
  revert frame fi. induction left as [|left IH]; intros frame fi; [reflexivity|].
  simpl. rewrite IH. reflexivity.
Qed.

Lemma sceneEvents_stages tf scenes fi :
  filter isStage (sceneEvents tf scenes fi) = map (framesReport tf) (seq fi (frameCount scenes)).
Proof.
  revert fi. induction scenes as [|sc rest IH]; intros fi; [reflexivity|].
  simpl. rewrite filter_app, frameEvents_stages, IH.
  unfold frameCount. simpl. fold (frameCount rest).
  rewrite seq_app, map_app. reflexivity.
Qed.

Lemma filter_isStage_deleted ds : filter isStage (map DeletedFile ds) = [].
Proof. induction ds as [|d ds IH]; [reflexivity|exact IH]. Qed.

Lemma afterFrames_stages env files w1 :
  filter isStage (trace (snd (afterFrames env files w1))) =
  filter isStage (trace w1) ++
    (if exec_ok env
     then if readFile_uint8 env then muxReports else firstn 2 muxReports
     else firstn 1 muxReports).
Proof.
  unfold afterFrames, try_finally, onStage, emit, bind, exec, readFile, ret, throw.
  cbn [storage trace canvas].
  destruct (exec_ok env).
  - cbn [storage trace canvas]. rewrite existsb_add_name.
    destruct (readFile_uint8 env);
    match goal with
    | |- context [cleanupFfmpeg env files ?W] =>
        destruct (cleanupFfmpeg_spec env files W) as (C1 & _ & _ & ds & C4);
        destruct (cleanupFfmpeg env files W) as [rc wc]
    end; simpl in C1, C4; subst rc; simpl; rewrite C4, !filter_app, filter_isStage_deleted;
    simpl; rewrite <- !app_assoc; reflexivity.
  - match goal with
    | |- context [cleanupFfmpeg env files ?W] =>
        destruct (cleanupFfmpeg_spec env files W) as (C1 & _ & _ & ds & C4);
        destruct (cleanupFfmpeg env files W) as [rc wc]
    end; simpl in C1, C4; subst rc; simpl; rewrite C4, !filter_app, filter_isStage_deleted;
    simpl; rewrite <- !app_assoc; reflexivity.
Qed.

Lemma SS_app (l1 l2 : list Q) :
  StronglySorted Qle l1 -> StronglySorted Qle l2 ->
  (forall x y, In x l1 -> In y l2 -> x <= y) -> StronglySorted Qle (l1 ++ l2).
Proof.
  induction l1 as [|a l1 IH]; intros H1 H2 H; [exact H2|].
  inversion H1 as [|? ? Hs Hf]; subst. simpl. constructor.
  - apply IH; [exact Hs|exact H2|]. intros x y Hx Hy. apply H; [right; exact Hx|exact Hy].
  - apply Forall_app. split; [exact Hf|].
    apply Forall_forall. intros y Hy. apply H; [left; reflexivity|exact Hy].
Qed.

Lemma SS_map_seq (f : nat -> Q) (a n : nat) :
  (forall i j, (a <= i)%nat -> (i <= j)%nat -> (j < a + n)%nat -> f i <= f j) ->
  StronglySorted Qle (map f (seq a n)).
Proof.
  revert a. induction n as [|n IH]; intros a H; simpl; constructor.
  - apply IH. intros i j Hi Hij Hj. apply H; lia.
  - apply Forall_forall. intros y Hy. apply in_map_iff in Hy as (j & <- & Hj).
    apply in_seq in Hj. apply H; lia.
Qed.

Lemma framesReport_value (tf : Z) (n i : nat) :
  (1 <= tf)%Z -> 30 * inject_Z (Z.of_nat n) <= 31 * inject_Z tf -> (i < n)%nat ->
  2 # 10 <= stageUiProgress (framesReport tf i) <= 82 # 100.
Proof.
  intros Ht Hb Hi. cbn [stageUiProgress framesReport onStageState renderStateProgress].
  assert (HT : 0 < inject_Z tf) by (unfold Qlt, inject_Z; simpl; lia).
  assert (Hin : inject_Z (Z.of_nat (S i)) <= inject_Z (Z.of_nat n)) by (rewrite <- Zle_Qle; lia).
  assert (H0 : 0 <= inject_Z (Z.of_nat (S i)) / inject_Z tf).
  { apply Qle_shift_div_l; [exact HT|]. rewrite Qmult_0_l. unfold Qle, inject_Z; simpl; lia. }
  assert (H1 : inject_Z (Z.of_nat (S i)) / inject_Z tf <= 31 # 30).
  { apply Qle_shift_div_r; [exact HT|]. lra. }
  split; lra.
Qed.

Lemma framesReport_mono (tf : Z) (i j : nat) :
  (1 <= tf)%Z -> (i <= j)%nat ->
  stageUiProgress (framesReport tf i) <= stageUiProgress (framesReport tf j).
Proof.
  intros Ht Hij. cbn [stageUiProgress framesReport onStageState renderStateProgress].
  assert (HT : 0 <= / inject_Z tf).
  { apply Qlt_le_weak, Qinv_lt_0_compat. unfold Qlt, inject_Z; simpl; lia. }
  assert (Hin : inject_Z (Z.of_nat (S i)) <= inject_Z (Z.of_nat (S j))) by (rewrite <- Zle_Qle; lia).
  apply Qplus_le_compat; [apply Qle_refl|].
  apply Qmult_le_compat_r; [|discriminate].
  unfold Qdiv. apply Qmult_le_compat_r; assumption.
Qed.

Lemma totalFramesFor_pos scenes : (1 <= totalFramesFor scenes)%Z.
Proof. unfold totalFramesFor. lia. Qed.

Lemma muxReports_values (k : nat) :
  StronglySorted Qle (map stageUiProgress (firstn k muxReports)) /\
  Forall (fun y => 82 # 100 <= y <= 1) (map stageUiProgress (firstn k muxReports)).
Proof.
  destruct k as [|[|[|[|k]]]]; simpl; split; repeat constructor;
    apply Qle_bool_imp_le; reflexivity.
Qed.

(** [X8] When the frame stage cannot fail, there is at least one scene and
    every duration lies in [[2, 8]], the progress values [handleRender]
    shows for the stage reports of an attempt never decrease: they start
    from the initial 0.05 and stay within [[0.05, 1]], through the encoder
    loading, every frame and the muxing steps reached. *)
Theorem export_progress_monotone (env : Env) (scenes : list Scene) (w : World) :
  framesEnvOk env ->
  Forall (fun s => findGradient (gradientId s) <> None) scenes ->
  scenes <> [] ->
  Forall duration_in_bounds scenes ->
  exists L,
    filter isStage (trace (snd (synthesizeVideo env scenes w))) = filter isStage (trace w) ++ L /\
    StronglySorted Qle ((5 # 100) :: map stageUiProgress L) /\
    Forall (fun p => 5 # 100 <= p <= 1) (map stageUiProgress L).
Proof.
  intros Henv Hg Hne Hb.
  destruct (synthesizeVideo_split env scenes w Henv Hg Hne) as (w1 & _ & T1 & E).
  rewrite E, afterFrames_stages, T1, !filter_app, sceneEvents_stages.
  assert (HM : exists k, (if exec_ok env
                          then if readFile_uint8 env then muxReports else firstn 2 muxReports
                          else firstn 1 muxReports) = firstn k muxReports).
  { destruct (exec_ok env); [destruct (readFile_uint8 env)|].
    - exists 3%nat. reflexivity.
    - exists 2%nat. reflexivity.
    - exists 1%nat. reflexivity. }
  destruct HM as [k ->].
  destruct (muxReports_values k) as [MS MF].
  pose proof (frame_total_bound scenes Hne Hb) as HB.
  pose proof (totalFramesFor_pos scenes) as HT.
  set (T := totalFramesFor scenes) in *.
  set (N := frameCount scenes) in *.
  assert (FV : Forall (fun y => 2 # 10 <= y <= 82 # 100)
                 (map stageUiProgress (map (framesReport T) (seq 0 N)))).
  { rewrite map_map. apply Forall_forall. intros y Hy.
    apply in_map_iff in Hy as (i & <- & Hi). apply in_seq in Hi.
    apply (framesReport_value T N i HT HB). lia. }
  assert (FS : StronglySorted Qle (map stageUiProgress (map (framesReport T) (seq 0 N)))).
  { rewrite map_map. apply SS_map_seq. intros i j _ Hij _. apply framesReport_mono; assumption. }
  exists ([OnStage loading (1 # 10); OnStage loading 1] ++
          map (framesReport T) (seq 0 N) ++ firstn k muxReports).
  split; [|split].
  - change (filter isStage [OnStage loading (1 # 10); EncoderLoaded; OnStage loading 1])
      with [OnStage loading (1 # 10); OnStage loading 1].
    rewrite <- !app_assoc. reflexivity.
  - rewrite !map_app.
    change ((5 # 100) :: map stageUiProgress [OnStage loading (1 # 10); OnStage loading 1] ++ ?r)
      with ([5 # 100; stageUiProgress (OnStage loading (1 # 10));
             stageUiProgress (OnStage loading 1)] ++ r).
    apply SS_app; [| apply SS_app |].
    + repeat constructor; apply Qle_bool_imp_le; reflexivity.
    + exact FS.
    + exact MS.
    + intros x y Hx Hy. rewrite Forall_forall in FV, MF.
      destruct (FV x Hx), (MF y Hy). lra.
    + intros x y Hx Hy.
      assert (Hx' : x <= 2 # 10).
      { destruct Hx as [<-|[<-|[<-|[]]]]; apply Qle_bool_imp_le; reflexivity. }
      apply in_app_or in Hy as [Hy|Hy].
      * rewrite Forall_forall in FV. destruct (FV y Hy). lra.
      * rewrite Forall_forall in MF. destruct (MF y Hy). lra.
  - rewrite !map_app. apply Forall_app. split; [|apply Forall_app; split].
    + repeat constructor; apply Qle_bool_imp_le; reflexivity.
    + eapply Forall_impl; [|exact FV]. intros y [Hy1 Hy2]. split; lra.
    + eapply Forall_impl; [|exact MF]. intros y [Hy1 Hy2]. split; lra.
Qed.

(** ** Scene list operations *)

Lemma findIndex_none {A} (p : A -> bool) (l : list A) :
  (forall x, In x l -> p x = false) -> findIndex p l = (-1)%Z.
Proof.
  induction l as [|x l IH]; intros H; [reflexivity|]. simpl.
  rewrite (H x (or_introl eq_refl)), IH; [reflexivity|].
  intros y Hy. apply H. right. exact Hy.
Qed.

Lemma findIndex_first {A} (p : A -> bool) (l : list A) (i : nat) (x : A) :
  nth_error l i = Some x -> p x = true ->
  (forall j y, (j < i)%nat -> nth_error l j = Some y -> p y = false) ->
  findIndex p l = Z.of_nat i.
Proof.
  revert i. induction l as [|y l IH]; intros i Hn Hp Hb; [destruct i; discriminate|].
  destruct i as [|i]; simpl in Hn |- *.
  - injection Hn as ->. rewrite Hp. reflexivity.
  - rewrite (Hb 0%nat y ltac:(lia) eq_refl).
    rewrite (IH i Hn Hp); [|intros j z Hj Hz; apply (Hb (S j) z); [lia|exact Hz]].
    destruct (Z.eqb_spec (Z.of_nat i) (-1)); [lia|]. lia.
Qed.

(** [X9] Below [MAX_SCENES] scenes, [addScene] appends one scene built
    from the last scene [t]: the next fresh id, the fixed title and
    description, [t]'s duration clamped to [[2, 8]], [t]'s colours and
    animation, and selects it. Its gradient is the registry entry after
    the first entry carrying [t]'s gradient id, wrapping around at the
    end, or the first entry when no entry carries that id. *)
Theorem addScene_appends (a : App) (pre : list Scene) (t : Scene) :
  (List.length (app_scenes a) < MAX_SCENES)%nat ->
  GRADIENTS <> [] ->
  app_scenes a = pre ++ [t] ->
  exists g,
    addScene a =
      mkApp (app_scenes a ++
               [mkScene (nextId a) "New Narrative Moment"
                  "Swap in your copy and colors, then keep sculpting the flow."
                  (clamp (duration t) MIN_DURATION MAX_DURATION)
                  (gid g) (textColor t) (accent t) (animation t)])
            (nextId a) (S (nextId a)) /\
    ((forall g', In g' GRADIENTS -> gid g' <> gradientId t) -> hd_error GRADIENTS = Some g) /\
    (forall i gi, nth_error GRADIENTS i = Some gi -> gid gi = gradientId t ->
       (forall j gj, (j < i)%nat -> nth_error GRADIENTS j = Some gj -> gid gj <> gradientId t) ->
       nth_error GRADIENTS (S i mod List.length GRADIENTS) = Some g).
Proof.
  intros Hlen Hg Ha.
  assert (HL : (0 < List.length GRADIENTS)%nat) by (destruct GRADIENTS; [congruence|simpl; lia]).
  set (p := fun g => String.eqb (gid g) (gradientId t)).
  set (idx := ((findIndex p GRADIENTS + 1) mod Z.of_nat (List.length GRADIENTS))%Z).
  assert (Hidx : (0 <= idx < Z.of_nat (List.length GRADIENTS))%Z)
    by (apply Z.mod_pos_bound; lia).
  destruct (nth_error GRADIENTS (Z.to_nat idx)) as [g|] eqn:Hn.
  2:{ apply nth_error_None in Hn. lia. }
  exists g. split; [|split].
  - unfold addScene. cbv zeta.
    destruct (Nat.leb_spec MAX_SCENES (List.length (app_scenes a))); [lia|].
    rewrite Ha, rev_unit. rewrite <- Ha. fold p. fold idx. rewrite Hn. reflexivity.
  - intros Hnone.
    assert (E : findIndex p GRADIENTS = (-1)%Z).
    { apply findIndex_none. intros x Hx. unfold p.
      apply Bool.not_true_iff_false. intros Heq. apply String.eqb_eq in Heq.
      exact (Hnone x Hx Heq). }
    unfold idx in Hn. rewrite E, Z.mod_0_l in Hn by lia.
    destruct GRADIENTS; [congruence|exact Hn].
  - intros i gi Hi Hgi Hb.
    assert (E : findIndex p GRADIENTS = Z.of_nat i).
    { apply (findIndex_first p GRADIENTS i gi Hi).
      - unfold p. apply String.eqb_eq. exact Hgi.
      - intros j y Hj Hy. unfold p. apply Bool.not_true_iff_false. intros Heq.
        apply String.eqb_eq in Heq. exact (Hb j y Hj Hy Heq). }
    unfold idx in Hn. rewrite E in Hn.
    replace (Z.to_nat ((Z.of_nat i + 1) mod Z.of_nat (List.length GRADIENTS)))
      with (S i mod List.length GRADIENTS)%nat in Hn; [exact Hn|].
    rewrite <- (Nat2Z.id (S i mod List.length GRADIENTS)), Nat2Z.inj_mod.
    f_equal. f_equal. lia.
Qed.

Lemma find_hd_filter {A} (p : A -> bool) (l : list A) :
  find p l = hd_error (filter p l).
Proof. induction l as [|x l IH]; simpl; [reflexivity|]. destruct (p x); [reflexivity|exact IH]. Qed.

Lemma filter_other_nonnil (l : list Scene) (sid : nat) :
  (2 <= List.length l)%nat -> NoDup (map id l) ->
  filter (fun scene => negb (Nat.eqb (id scene) sid)) l <> [].
Proof.
  intros H2 Hd Hnil. pose proof (filter_unique_length l sid Hd) as H.
  rewrite Hnil in H. simpl in H. lia.
Qed.

(** [X10] On a list of two or more distinct scene ids, [removeScene a sid]
    keeps exactly the scenes whose id is not [sid], in order, and leaves
    the fresh-id counter alone; the selection is unchanged unless it was
    [sid], in which case the first remaining scene is selected. *)
Theorem removeScene_spec (a : App) (sid : nat) :
  (2 <= List.length (app_scenes a))%nat ->
  NoDup (map id (app_scenes a)) ->
  app_scenes (removeScene a sid) =
    filter (fun scene => negb (Nat.eqb (id scene) sid)) (app_scenes a) /\
  nextId (removeScene a sid) = nextId a /\
  (selectedSceneId a <> sid -> selectedSceneId (removeScene a sid) = selectedSceneId a) /\
  (selectedSceneId a = sid ->
     exists s, hd_error (app_scenes (removeScene a sid)) = Some s /\
               selectedSceneId (removeScene a sid) = id s).
Proof.
  intros H2 Hd. unfold removeScene. cbv zeta.
  destruct (Nat.eqb_spec (List.length (app_scenes a)) 1) as [E|_]; [lia|].
  cbn [app_scenes nextId selectedSceneId].
  split; [reflexivity|]. split; [reflexivity|]. split.
  - intros Hne. destruct (Nat.eqb_spec (selectedSceneId a) sid); [congruence|reflexivity].
  - intros ->. rewrite Nat.eqb_refl, find_hd_filter.
    pose proof (filter_other_nonnil (app_scenes a) sid H2 Hd) as Hn.
    destruct (filter (fun scene => negb (Nat.eqb (id scene) sid)) (app_scenes a)) as [|s rest];
      [congruence|].
    exists s. split; reflexivity.
Qed.

Lemma find_id_NoDup (l : list Scene) (s : Scene) (k : nat) :
  NoDup (map id l) -> In s l -> id s = k -> find (fun x => Nat.eqb (id x) k) l = Some s.
Proof.
  induction l as [|x l IH]; intros Hd Hin Hk; [destruct Hin|].
  inversion Hd as [|? ? Hx Hl]; subst. simpl.
  destruct Hin as [<-|Hin]; [rewrite Nat.eqb_refl; reflexivity|].
  destruct (Nat.eqb_spec (id x) (id s)) as [E|_]; [|exact (IH Hl Hin eq_refl)].
  exfalso. apply Hx. rewrite E. apply in_map, Hin.
Qed.

Lemma find_id_None (l l' : list Scene) (k : nat) :
  map id l = map id l' ->
  find (fun x => Nat.eqb (id x) k) l = None -> find (fun x => Nat.eqb (id x) k) l' = None.
Proof.
  revert l'. induction l as [|x l IH]; intros [|x' l'] Hm Hf; try discriminate; [reflexivity|].
  simpl in Hm, Hf |- *. injection Hm as Hx Hm. rewrite <- Hx.
  destruct (Nat.eqb (id x) k); [discriminate|]. exact (IH l' Hm Hf).
Qed.

Lemma map_id_edit (pre post : list Scene) (s : Scene) (e : Edit) :
  NoDup (map id (pre ++ s :: post)) ->
  map (fun scene => if Nat.eqb (id scene) (id s) then applyEdit s e else scene)
      (pre ++ s :: post) = pre ++ applyEdit s e :: post.
Proof.
  intros Hd. rewrite map_app. simpl. rewrite Nat.eqb_refl.
  rewrite map_app in Hd. simpl in Hd. apply NoDup_remove_2 in Hd.
  f_equal; [|f_equal].
  - rewrite <- (map_id pre) at 2. apply map_ext_in. intros x Hx.
    destruct (Nat.eqb_spec (id x) (id s)) as [E|]; [|reflexivity].
    exfalso. apply Hd. apply in_or_app. left. rewrite <- E. apply in_map, Hx.
  - rewrite <- (map_id post) at 2. apply map_ext_in. intros x Hx.
    destruct (Nat.eqb_spec (id x) (id s)) as [E|]; [|reflexivity].
    exfalso. apply Hd. apply in_or_app. right. rewrite <- E. apply in_map, Hx.
Qed.

(** [X11] With distinct scene ids, an editor change to the active scene
    [s] replaces [s] in place by the edited record and touches no other
    scene, the selection or the fresh-id counter; the edited scene stays
    the active one. *)
Theorem editScene_spec (a : App) (e : Edit) (pre post : list Scene) (s : Scene) :
  NoDup (map id (app_scenes a)) ->
  app_scenes a = pre ++ s :: post ->
  activeScene a = Some s ->
  step a (EditScene e) = mkApp (pre ++ applyEdit s e :: post) (selectedSceneId a) (nextId a) /\
  activeScene (step a (EditScene e)) = Some (applyEdit s e).
Proof.
  intros Hd Ha Hact.
  assert (Hstep : step a (EditScene e) =
                  mkApp (pre ++ applyEdit s e :: post) (selectedSceneId a) (nextId a)).
  { unfold step. rewrite Hact. unfold updateScene. rewrite Ha.
    rewrite Ha in Hd. rewrite (map_id_edit pre post s e Hd). reflexivity. }
  split; [exact Hstep|]. rewrite Hstep.
  assert (Hm : map id (pre ++ s :: post) = map id (pre ++ applyEdit s e :: post)).
  { rewrite !map_app. simpl. rewrite applyEdit_id. reflexivity. }
  assert (Hd' : NoDup (map id (pre ++ applyEdit s e :: post))) by (rewrite <- Hm, <- Ha; exact Hd).
  unfold activeScene. cbn [app_scenes selectedSceneId].
  unfold activeScene in Hact.
  destruct (find (fun scene => Nat.eqb (id scene) (selectedSceneId a)) (app_scenes a))
    as [s0|] eqn:Ef.
  - injection Hact as ->. apply find_some in Ef as [_ Ek]. apply Nat.eqb_eq in Ek.
    rewrite (find_id_NoDup _ (applyEdit s e) _ Hd'); [reflexivity| |].
    + apply in_or_app. right. left. reflexivity.
    + rewrite applyEdit_id. exact Ek.
  - rewrite Ha in Ef. rewrite (find_id_None _ _ _ Hm Ef).
    rewrite Ha in Hact, Hd.
    destruct pre as [|p0 pre]; [reflexivity|].
    simpl in Hact. injection Hact as ->.
    exfalso. simpl in Hd. inversion Hd as [|? ? Hx _]. apply Hx.
    rewrite map_app. apply in_or_app. right. left. reflexivity.
Qed.

(** [X12] After any sequence of editor actions from the initial scenes,
    the editor has an active scene, it is one of the listed scenes, and
    the scene ids are distinct and below the fresh-id counter. *)
Theorem run_active_scene (acts : list Action) :
  (exists s, activeScene (run acts) = Some s /\ In s (app_scenes (run acts))) /\
  NoDup (map id (app_scenes (run acts))) /\
  Forall (fun s => (id s < nextId (run acts))%nat) (app_scenes (run acts)).
Proof.
  destruct (run_wf_from acts initialApp initial_wf) as (Hl & Hd & Hf).
  fold (run acts) in Hl, Hd, Hf.
  split; [|split; [exact Hd|exact Hf]].
  destruct (activeScene (run acts)) as [s|] eqn:E.
  - exists s. split; [reflexivity|]. apply activeScene_in, E.
  - exfalso. unfold activeScene in E.
    destruct (find _ (app_scenes (run acts))); [discriminate|].
    destruct (app_scenes (run acts)); [simpl in Hl; lia|discriminate].
Qed.

(** ** Early failures of an export attempt *)

Lemma bind_Throw {A B} (m : M A) (k : A -> M B) w e w1 :
  m w = (Throw e, w1) -> bind m k w = (Throw e, w1).
Proof. intros H. unfold bind. now rewrite H. Qed.

(** [X13] An attempt with at least one scene stops at the first missing
    capability, before any frame file is written and without running the
    clean-up: when the encoder fails to load, after the first loading
    report; when no 2D context is available, with the error "Unable to
    access 2D context for rendering." after the loading reports; when
    base64 decoding is missing, with the error "Base64 decoding is not
    available in this environment." after rendering the first frame.  In
    each case the encoder's storage is unchanged. *)
Theorem synthesizeVideo_early_failures (env : Env) (s : Scene) (rest : list Scene) (w : World) :
  (getFFmpeg_ok env = false ->
     (exists e, fst (synthesizeVideo env (s :: rest) w) = Throw e) /\
     storage (snd (synthesizeVideo env (s :: rest) w)) = storage w /\
     trace (snd (synthesizeVideo env (s :: rest) w)) = trace w ++ [OnStage loading (1 # 10)]) /\
  (getFFmpeg_ok env = true -> context2d_ok env = false ->
     fst (synthesizeVideo env (s :: rest) w) =
       Throw "Unable to access 2D context for rendering." /\
     storage (snd (synthesizeVideo env (s :: rest) w)) = storage w /\
     trace (snd (synthesizeVideo env (s :: rest) w)) =
       trace w ++ [OnStage loading (1 # 10); EncoderLoaded; OnStage loading 1]) /\
  (getFFmpeg_ok env = true -> context2d_ok env = true -> atob_ok env = false ->
     findGradient (gradientId s) <> None ->
     fst (synthesizeVideo env (s :: rest) w) =
       Throw "Base64 decoding is not available in this environment." /\
     storage (snd (synthesizeVideo env (s :: rest) w)) = storage w /\
     trace (snd (synthesizeVideo env (s :: rest) w)) =
       trace w ++ [OnStage loading (1 # 10); EncoderLoaded; OnStage loading 1;
                   RenderedFrame s (frameProgress (framesForScene s) 0)]).
Proof.
  split; [|split].
  - intros Hl. unfold synthesizeVideo. cbn [List.length Nat.eqb].
    unfold bind at 1, loadEncoder, bind, onStage, emit, getFFmpeg, throw. rewrite Hl.
    cbn. split; [eexists; reflexivity|]. split; reflexivity.
  - intros Hl Hc. unfold synthesizeVideo. cbn [List.length Nat.eqb].
    rewrite (bind_Ok _ _ _ _ _ (loadEncoder_ok env w Hl)).
    rewrite (bind_Ok createCanvas _ _ tt _ eq_refl).
    unfold bind at 1, getContext, throw. rewrite Hc. cbn.
    split; [reflexivity|]. split; [reflexivity|]. reflexivity.
  - intros Hl Hc Ha Hg. unfold synthesizeVideo. cbn [List.length Nat.eqb].
    rewrite (bind_Ok _ _ _ _ _ (loadEncoder_ok env w Hl)).
    rewrite (bind_Ok createCanvas _ _ tt _ eq_refl).
    rewrite (bind_Ok _ _ _ _ _ (getContext_ok env _ Hc)).
    destruct (renderSceneFrame_quiescent s (frameProgress (framesForScene s) 0) Hg) as [ops Hops].
    destruct (Hops CANVAS_WIDTH CANVAS_HEIGHT [] []) as [pth' Hr].
    assert (Ez : exists m, Z.to_nat (framesForScene s) = S m).
    { pose proof (framesForScene_pos s). exists (pred (Z.to_nat (framesForScene s))). lia. }
    destruct Ez as [m Ez].
    match goal with
    | |- context [bind (sceneLoop _ _ _ 0 []) _ ?w0] => set (W0 := w0)
    end.
    set (W1 := mkWorld (storage w)
                 (trace W0 ++ [RenderedFrame s (frameProgress (framesForScene s) 0)])
                 (mkCtx CANVAS_WIDTH CANVAS_HEIGHT defaultDrawState [] pth' ([] ++ ops))).
    assert (Hrf : renderFrame s (frameProgress (framesForScene s) 0) W0 = (Ok tt, W1)).
    { unfold renderFrame. cbn [canvas W0]. unfold freshCtx. rewrite Hr. reflexivity. }
    assert (Hcv : canvasToUint8 env W1 =
                  (Throw "Base64 decoding is not available in this environment.", W1)).
    { unfold canvasToUint8. rewrite Ha. reflexivity. }
    assert (HF : frameLoop env s (framesForScene s) (totalFramesFor (s :: rest)) 0
                   (Z.to_nat (framesForScene s)) 0 [] W0 =
                 (Throw "Base64 decoding is not available in this environment.", W1)).
    { rewrite Ez. cbn [frameLoop]. rewrite (bind_Ok _ _ _ _ _ Hrf).
      apply bind_Throw, Hcv. }
    assert (HS : sceneLoop env (totalFramesFor (s :: rest)) (s :: rest) 0 [] W0 =
                 (Throw "Base64 decoding is not available in this environment.", W1)).
    { cbn [sceneLoop]. apply bind_Throw, HF. }
    rewrite (bind_Throw _ _ _ _ _ HS). cbn.
    split; [reflexivity|]. split; [reflexivity|]. rewrite <- !app_assoc. reflexivity.
Qed.

Lemma duration_le_total (scenes : list Scene) (s : Scene) :
  Forall (fun x => 0 <= duration x) scenes -> In s scenes ->
  duration s <= totalDurationForScenes scenes.
Proof.
  assert (Hnn : forall l, Forall (fun x => 0 <= duration x) l -> 0 <= totalDurationForScenes l).
  { induction 1 as [|x l Hx _ IH]; [apply Qle_refl|]. rewrite totalDuration_cons. lra. }
  induction 1 as [|x l Hx Hl IH]; intros Hin; [destruct Hin|].
  rewrite totalDuration_cons. destruct Hin as [<-|Hin].
  - pose proof (Hnn l Hl). lra.
  - pose proof (IH Hin). lra.
Qed.

Lemma timelineSpan_bounds (n : nat) (T : Q) (s : Scene) :
  (1 <= n)%nat -> 0 <= duration s -> duration s <= T ->
  (1 <= timelineSpan n T s <= 12)%Z.
Proof.
  intros Hn H0 HT. unfold timelineSpan, Math_round.
  assert (Hn' : 1 <= inject_Z (Z.of_nat n)) by (change 1 with (inject_Z 1); rewrite <- Zle_Qle; lia).
  assert (Hq : 100 / inject_Z (Z.of_nat n) <= 100).
  { apply Qle_shift_div_r; lra. }
  assert (Hw : (if Qeq_bool T 0 then 0 else duration s / T * 100) <= 100).
  { destruct (Qeq_bool T 0) eqn:E; [discriminate|].
    apply Qeq_bool_neq in E.
    assert (HT0 : 0 < T) by (apply Qle_lteq in HT as [HT|HT]; [lra|];
                             apply Qle_lteq in H0 as [H0|H0]; [lra|]; exfalso; apply E; lra).
    assert (Hd : duration s / T <= 1) by (apply Qle_shift_div_r; lra).
    lra. }
  set (width := if Qeq_bool T 0 then 0 else duration s / T * 100) in *.
  set (x := if Qeq_bool width 0 then 100 / inject_Z (Z.of_nat n) else width).
  assert (Hx : x <= 100) by (unfold x; destruct (Qeq_bool width 0); assumption).
  assert (Hy : x / 100 * 12 + (1 # 2) <= 12 + (1 # 2)).
  { unfold Qdiv. change (/ 100) with (1 # 100). lra. }
  apply Qfloor_resp_le in Hy. change (Qfloor (12 + (1 # 2))) with 12%Z in Hy. lia.
Qed.

(** [X14] When no scene has a negative duration, every chip of the
    [Timeline] spans between 1 and 12 grid columns, the [Math.max(1, ...)]
    giving the lower bound and the share of the total duration, or the
    even share [100 / scenes.length] when that share is 0, the upper one. *)
Theorem timelineSpans_bounds (scenes : list Scene) :
  Forall (fun s => 0 <= duration s) scenes ->
  Forall (fun k => (1 <= k <= 12)%Z) (timelineSpans scenes).
Proof.
  intros H. unfold timelineSpans. apply Forall_forall. intros k Hk.
  apply in_map_iff in Hk as (s & <- & Hs).
  apply timelineSpan_bounds.
  - destruct scenes; [destruct Hs|simpl; lia].
  - rewrite Forall_forall in H. apply H, Hs.
  - apply duration_le_total; assumption.
Qed.

(** ** Preview edges and the duration control *)

Lemma previewLoop_before c fb t l e :
  Forall (fun s => 0 <= duration s) l -> t < e ->
  previewLoop c fb t e l = renderSceneFrame c fb 1.
Proof.
  revert e. induction l as [|a l IH]; intros e Hl Ht; simpl; [reflexivity|].
  inversion Hl as [|? ? Ha Hl']; subst.
  unfold Qgeb. destruct (Qle_bool e t) eqn:E.
  - apply Qle_bool_iff in E. lra.
  - simpl. apply IH; [exact Hl'|lra].
Qed.

(** [X15] [renderPreviewFrame] draws nothing and leaves the context as it
    is when the total duration is 0 (in particular for an empty scene
    list); when no duration is negative and the total is not 0, a
    negative time falls through every scene interval and renders the last
    scene at progress 1. *)
Theorem renderPreviewFrame_edges (c : Ctx) (scenes : list Scene) (t : Q) :
  (totalDurationForScenes scenes == 0 -> renderPreviewFrame c scenes t = (Ok tt, c)) /\
  (Forall (fun s => 0 <= duration s) scenes -> ~ totalDurationForScenes scenes == 0 -> t < 0 ->
     forall d, renderPreviewFrame c scenes t = renderSceneFrame c (last scenes d) 1).
Proof.
  split.
  - intros H. unfold renderPreviewFrame. cbv zeta.
    apply Qeq_bool_iff in H. rewrite H. reflexivity.
  - intros Hn H Ht d. unfold renderPreviewFrame. cbv zeta.
    destruct (Qeq_bool (totalDurationForScenes scenes) 0) eqn:E.
    { apply Qeq_bool_iff in E. contradiction. }
    destruct scenes as [|s0 rest]; [exfalso; apply H; reflexivity|].
    rewrite (previewLoop_before c _ t _ 0 Hn Ht).
    rewrite (last_default_irrel (s0 :: rest) s0 d); [reflexivity|discriminate].
Qed.

(** [X16] The duration control of [SceneEditor] stores an entered value
    in [[2, 8]] unchanged, replaces a value below 2 by 2 and a value above
    8 by 8, and changes no other field of the scene. *)
Theorem setDuration_clamp (s : Scene) (v : Q) :
  (MIN_DURATION <= v <= MAX_DURATION -> duration (applyEdit s (SetDuration v)) == v) /\
  (v < MIN_DURATION -> duration (applyEdit s (SetDuration v)) == MIN_DURATION) /\
  (MAX_DURATION < v -> duration (applyEdit s (SetDuration v)) == MAX_DURATION) /\
  applyEdit s (SetDuration v) =
    mkScene (id s) (title s) (description s) (duration (applyEdit s (SetDuration v)))
      (gradientId s) (textColor s) (accent s) (animation s).
Proof.
  cbn [applyEdit duration]. unfold clamp, MIN_DURATION, MAX_DURATION.
  split; [|split; [|split]].
  - intros [H1 H2].
    apply Qeq_trans with (Qmax v 2).
    + apply Q.min_l. apply Q.max_lub; [exact H2|discriminate].
    + apply Q.max_l. exact H1.
  - intros H.
    apply Qeq_trans with (Qmax v 2).
    + apply Q.min_l. apply Q.max_lub; [lra|discriminate].
    + apply Q.max_r. lra.
  - intros H. apply Q.min_r.
    apply Qle_trans with v; [lra|apply Q.le_max_l].
  - reflexivity.
Qed.

End Program.

(* ================================================================== *)
(** * The program run on the concrete host *)

Open Scope Q_scope.
Open Scope list_scope.

(** ** Witnesses: the theorems applied at concrete inputs *)

Lemma renderSceneFrame_missing_gradient_witness :
  findGradient ex_gradients (gradientId (sampleScene 2 "missing")) = None /\
  renderSceneFrame ex_sin ex_cos ex_pi ex_measure ex_gradients
    (freshCtx CANVAS_WIDTH CANVAS_HEIGHT) (sampleScene 2 "missing") 0 =
  (Throw ("Missing gradient " ++ dq ++ "missing" ++ dq ++ ".")%string,
   freshCtx CANVAS_WIDTH CANVAS_HEIGHT).
Proof.
  split; [reflexivity|].
  exact (proj1 (renderSceneFrame_missing_gradient ex_sin ex_cos ex_pi ex_measure ex_gradients
                  (sampleScene 2 "missing") eq_refl) _ _).
Defined.

Lemma renderPreviewFrame_timeline_witness :
  (Forall (fun s => 0 <= duration s) [sampleScene 2 "aurora"; sampleScene 3 "aurora"] /\
   0 < totalDurationForScenes [sampleScene 2 "aurora"; sampleScene 3 "aurora"] /\
   0 <= (5 # 2) /\ (5 # 2) < totalDurationForScenes [sampleScene 2 "aurora"; sampleScene 3 "aurora"] /\
   (exists i, (i < List.length [sampleScene 2 "aurora"; sampleScene 3 "aurora"])%nat /\
      (forall j, (j < List.length [sampleScene 2 "aurora"; sampleScene 3 "aurora"])%nat ->
         (sceneStart [sampleScene 2 "aurora"; sampleScene 3 "aurora"] j <= (5 # 2) /\
          (5 # 2) < sceneStart [sampleScene 2 "aurora"; sampleScene 3 "aurora"] j +
                  duration (nth j [sampleScene 2 "aurora"; sampleScene 3 "aurora"]
                              (sampleScene 2 "aurora"))) <-> j = i) /\
      renderPreviewFrame ex_sin ex_cos ex_pi ex_measure ex_gradients
        (freshCtx CANVAS_WIDTH CANVAS_HEIGHT) [sampleScene 2 "aurora"; sampleScene 3 "aurora"]
        (5 # 2) =
      renderSceneFrame ex_sin ex_cos ex_pi ex_measure ex_gradients
        (freshCtx CANVAS_WIDTH CANVAS_HEIGHT)
        (nth i [sampleScene 2 "aurora"; sampleScene 3 "aurora"] (sampleScene 2 "aurora"))
        (((5 # 2) - sceneStart [sampleScene 2 "aurora"; sampleScene 3 "aurora"] i) /
         duration (nth i [sampleScene 2 "aurora"; sampleScene 3 "aurora"]
                     (sampleScene 2 "aurora")))) /\
   totalDurationForScenes [sampleScene 2 "aurora"; sampleScene 3 "aurora"] <= 6 /\
   renderPreviewFrame ex_sin ex_cos ex_pi ex_measure ex_gradients
     (freshCtx CANVAS_WIDTH CANVAS_HEIGHT) [sampleScene 2 "aurora"; sampleScene 3 "aurora"] 6 =
   renderSceneFrame ex_sin ex_cos ex_pi ex_measure ex_gradients
     (freshCtx CANVAS_WIDTH CANVAS_HEIGHT)
     (last [sampleScene 2 "aurora"; sampleScene 3 "aurora"] (sampleScene 2 "aurora")) 1) /\
  (duration (sampleScene 2 "aurora") = 2 /\ 2 <= 3 /\
   renderPreviewFrame ex_sin ex_cos ex_pi ex_measure ex_gradients
     (freshCtx CANVAS_WIDTH CANVAS_HEIGHT) [sampleScene 2 "aurora"] 3 =
   renderSceneFrame ex_sin ex_cos ex_pi ex_measure ex_gradients
     (freshCtx CANVAS_WIDTH CANVAS_HEIGHT) (sampleScene 2 "aurora") 1).
Proof.
  assert (Hn : Forall (fun s => 0 <= duration s) [sampleScene 2 "aurora"; sampleScene 3 "aurora"]).
  { repeat constructor; apply Qle_bool_imp_le; reflexivity. }
  assert (Hp : 0 < totalDurationForScenes [sampleScene 2 "aurora"; sampleScene 3 "aurora"])
    by reflexivity.
  assert (H0 : 0 <= (5 # 2)) by (apply Qle_bool_imp_le; reflexivity).
  assert (Ht : (5 # 2) < totalDurationForScenes [sampleScene 2 "aurora"; sampleScene 3 "aurora"])
    by reflexivity.
  assert (H6 : totalDurationForScenes [sampleScene 2 "aurora"; sampleScene 3 "aurora"] <= 6)
    by (apply Qle_bool_imp_le; reflexivity).
  assert (H23 : 2 <= 3) by (apply Qle_bool_imp_le; reflexivity).
  split.
  - split; [exact Hn|split; [exact Hp|split; [exact H0|split; [exact Ht|split]]]].
    + exact (proj1 (proj1 (renderPreviewFrame_timeline ex_sin ex_cos ex_pi ex_measure ex_gradients)
                      (freshCtx CANVAS_WIDTH CANVAS_HEIGHT)
                      [sampleScene 2 "aurora"; sampleScene 3 "aurora"] (5 # 2)
                      (sampleScene 2 "aurora") Hn Hp) H0 Ht).
    + split; [exact H6|].
      exact (proj2 (proj1 (renderPreviewFrame_timeline ex_sin ex_cos ex_pi ex_measure ex_gradients)
                      (freshCtx CANVAS_WIDTH CANVAS_HEIGHT)
                      [sampleScene 2 "aurora"; sampleScene 3 "aurora"] 6
                      (sampleScene 2 "aurora") Hn Hp) H6).
  - split; [reflexivity|split; [exact H23|]].
    exact (proj2 (proj2 (proj2 (renderPreviewFrame_timeline ex_sin ex_cos ex_pi ex_measure
                                   ex_gradients)
                            (freshCtx CANVAS_WIDTH CANVAS_HEIGHT) (sampleScene 2 "aurora")
                            eq_refl)) 3 H23).
Defined.

Lemma scene_count_bounds_witness :
  List.length (app_scenes (mkApp [sampleScene 2 "aurora"] 0%nat 1%nat)) = 1%nat /\
  removeScene (mkApp [sampleScene 2 "aurora"] 0%nat 1%nat) 0%nat = mkApp [sampleScene 2 "aurora"] 0%nat 1%nat.
Proof.
  split; [reflexivity|].
  exact (proj1 (proj2 (scene_count_bounds ex_gradients)) (mkApp [sampleScene 2 "aurora"] 0%nat 1%nat) 0%nat eq_refl).
Defined.

Lemma renderSceneFrame_deterministic_witness :
  findGradient ex_gradients (gradientId (sampleScene 2 "aurora")) <> None /\
  surfaceImage (snd (renderSceneFrame ex_sin ex_cos ex_pi ex_measure ex_gradients
                       (freshCtx CANVAS_WIDTH CANVAS_HEIGHT) (sampleScene 2 "aurora") (1 # 2))) =
  surfaceImage (snd (renderSceneFrame ex_sin ex_cos ex_pi ex_measure ex_gradients
                       (freshCtx CANVAS_WIDTH CANVAS_HEIGHT) (sampleScene 2 "aurora") (1 # 2))).
Proof.
  assert (Hg : findGradient ex_gradients (gradientId (sampleScene 2 "aurora")) <> None)
    by (vm_compute; intros H; discriminate H).
  split; [exact Hg|].
  destruct (renderSceneFrame_deterministic ex_sin ex_cos ex_pi ex_measure ex_gradients
              (sampleScene 2 "aurora") (1 # 2) Hg) as [ops [_ Hsame]].
  apply Hsame; reflexivity.
Defined.

Lemma env_ok_frames : framesEnvOk env_ok.
Proof. split; [reflexivity|split; [reflexivity|split; [reflexivity|intros; reflexivity]]]. Qed.

Lemma aurora_resolves :
  Forall (fun s => findGradient ex_gradients (gradientId s) <> None) [sampleScene 2 "aurora"].
Proof. constructor; [vm_compute; intros H; discriminate H|constructor]. Qed.

Lemma frames_per_scene_witness :
  framesEnvOk env_ok /\
  Forall (fun s => findGradient ex_gradients (gradientId s) <> None) [sampleScene 2 "aurora"] /\
  [sampleScene 2 "aurora"] <> [] /\
  filter isRendered
    (trace (snd (synthesizeVideo ex_sin ex_cos ex_pi ex_measure ex_gradients env_ok
                   [sampleScene 2 "aurora"] emptyWorld))) =
  filter isRendered (trace emptyWorld) ++
  flat_map (fun s => map (fun k => RenderedFrame s (frameProgress (framesForScene s) k))
                         (seq 0 (Z.to_nat (framesForScene s)))) [sampleScene 2 "aurora"] /\
  duration (sampleScene 2 "aurora") == 2 /\
  framesForScene (sampleScene 2 "aurora") = 48%Z.
Proof.
  assert (Hne : [sampleScene 2 "aurora"] <> []) by discriminate.
  split; [exact env_ok_frames|split; [exact aurora_resolves|split; [exact Hne|split]]].
  - exact (proj1 (frames_per_scene ex_sin ex_cos ex_pi ex_measure ex_gradients)
             env_ok _ emptyWorld env_ok_frames aurora_resolves Hne).
  - split; [reflexivity|].
    exact (proj1 (proj2 (proj2 (frames_per_scene ex_sin ex_cos ex_pi ex_measure ex_gradients)))
             (sampleScene 2 "aurora") eq_refl).
Defined.

Lemma frame_file_names_witness :
  framesEnvOk env_ok /\
  Forall (fun s => findGradient ex_gradients (gradientId s) <> None)
    [sampleScene 2 "aurora"; sampleScene 3 "aurora"] /\
  [sampleScene 2 "aurora"; sampleScene 3 "aurora"] <> [] /\
  filter isWrite
    (trace (snd (synthesizeVideo ex_sin ex_cos ex_pi ex_measure ex_gradients env_ok
                   [sampleScene 2 "aurora"; sampleScene 3 "aurora"] emptyWorld))) =
  filter isWrite (trace emptyWorld) ++
  map (fun i => WroteFile (frameName i))
    (seq 0 (frameCount [sampleScene 2 "aurora"; sampleScene 3 "aurora"])) /\
  frameCount [sampleScene 2 "aurora"; sampleScene 3 "aurora"] = 120%nat /\
  Forall duration_in_bounds [sampleScene 2 "aurora"; sampleScene 3 "aurora"] /\
  (List.length [sampleScene 2 "aurora"; sampleScene 3 "aurora"] <= MAX_SCENES)%nat /\
  (48 < frameCount [sampleScene 2 "aurora"; sampleScene 3 "aurora"])%nat /\
  frameName 48 = ("frame_" ++ fiveDigits 48 ++ ".png")%string.
Proof.
  assert (Hg : Forall (fun s => findGradient ex_gradients (gradientId s) <> None)
                 [sampleScene 2 "aurora"; sampleScene 3 "aurora"]).
  { repeat constructor; vm_compute; intros H; discriminate H. }
  assert (Hne : [sampleScene 2 "aurora"; sampleScene 3 "aurora"] <> []) by discriminate.
  assert (Hb : Forall duration_in_bounds [sampleScene 2 "aurora"; sampleScene 3 "aurora"]).
  { repeat constructor; apply Qle_bool_imp_le; reflexivity. }
  assert (Hl : (List.length [sampleScene 2 "aurora"; sampleScene 3 "aurora"] <= MAX_SCENES)%nat)
    by (unfold MAX_SCENES; simpl; lia).
  assert (Hc : frameCount [sampleScene 2 "aurora"; sampleScene 3 "aurora"] = 120%nat)
    by (vm_compute; reflexivity).
  assert (Hi : (48 < frameCount [sampleScene 2 "aurora"; sampleScene 3 "aurora"])%nat)
    by (rewrite Hc; lia).
  split; [exact env_ok_frames|split; [exact Hg|split; [exact Hne|split]]].
  - exact (proj1 (frame_file_names ex_sin ex_cos ex_pi ex_measure ex_gradients)
             env_ok _ emptyWorld env_ok_frames Hg Hne).
  - split; [exact Hc|split; [exact Hb|split; [exact Hl|split; [exact Hi|]]]].
    exact (proj2 (proj2 (frame_file_names ex_sin ex_cos ex_pi ex_measure ex_gradients))
             _ Hb Hl 48%nat Hi).
Defined.

(** ** Witnesses of the further properties *)

Lemma wrapText_roundtrip_witness :
  Forall (fun w => w <> EmptyString) (split_space "Hello motion") /\
  String.concat " " (wrapText ex_measure (freshCtx CANVAS_WIDTH CANVAS_HEIGHT) "Hello motion" 100)
  = "Hello motion"%string.
Proof.
  assert (H : Forall (fun w => w <> EmptyString) (split_space "Hello motion")).
  { vm_compute. repeat constructor; intros E; discriminate E. }
  split; [exact H|].
  exact (wrapText_roundtrip ex_measure (freshCtx CANVAS_WIDTH CANVAS_HEIGHT) "Hello motion" 100 H).
Defined.

Lemma wrapText_lines_witness :
  In "Hello"%string (wrapText ex_measure (freshCtx CANVAS_WIDTH CANVAS_HEIGHT) "Hello motion" 100) /\
  "Hello"%string <> EmptyString /\
  (ex_measure (font (cstate (freshCtx CANVAS_WIDTH CANVAS_HEIGHT))) "Hello" <= 100 \/
   In "Hello"%string (split_space "Hello motion")).
Proof.
  assert (H : In "Hello"%string
                (wrapText ex_measure (freshCtx CANVAS_WIDTH CANVAS_HEIGHT) "Hello motion" 100)).
  { vm_compute. left. reflexivity. }
  exact (conj H (wrapText_lines ex_measure _ _ _ _ H)).
Defined.

Lemma easing_curves_witness :
  (0 <= 1 # 2 <= 1) /\
  (0 <= easeInOut (1 # 2) <= 1 /\ 0 <= easeOut (1 # 2) <= 1 /\ 0 <= easeIn (1 # 2) <= 1).
Proof.
  assert (H : 0 <= 1 # 2 <= 1) by (split; apply Qle_bool_imp_le; reflexivity).
  exact (conj H (proj1 easing_curves (1 # 2) H)).
Defined.

Lemma frameProgress_range_witness :
  (3 < Z.to_nat 48)%nat /\ 0 <= frameProgress 48 3 <= 1.
Proof.
  assert (H : (3 < Z.to_nat 48)%nat) by (simpl; lia).
  exact (conj H (proj1 frameProgress_range 48%Z 3%nat H)).
Defined.

Lemma synthesizeVideo_outcome_witness :
  framesEnvOk env_ok /\
  Forall (fun s => findGradient ex_gradients (gradientId s) <> None) [sampleScene 2 "aurora"] /\
  [sampleScene 2 "aurora"] <> [] /\
  fst (synthesizeVideo ex_sin ex_cos ex_pi ex_measure ex_gradients env_ok
         [sampleScene 2 "aurora"] emptyWorld) = Ok (mkBlob "video/mp4").
Proof.
  assert (Hne : [sampleScene 2 "aurora"] <> []) by discriminate.
  split; [exact env_ok_frames|split; [exact aurora_resolves|split; [exact Hne|]]].
  exact (proj1 (synthesizeVideo_outcome ex_sin ex_cos ex_pi ex_measure ex_gradients
                  env_ok _ emptyWorld env_ok_frames aurora_resolves Hne) eq_refl eq_refl).
Defined.

Lemma synthesizeVideo_storage_witness :
  framesEnvOk env_ok /\
  Forall (fun s => findGradient ex_gradients (gradientId s) <> None) [sampleScene 2 "aurora"] /\
  [sampleScene 2 "aurora"] <> [] /\
  (forall n, deleteFile_ok env_ok n = true) /\
  storage (snd (synthesizeVideo ex_sin ex_cos ex_pi ex_measure ex_gradients env_ok
                  [sampleScene 2 "aurora"]
                  (mkWorld ["notes.txt"] [] (freshCtx CANVAS_WIDTH CANVAS_HEIGHT)))) =
  filter (keepFile (map frameName (seq 0 (frameCount [sampleScene 2 "aurora"])) ++ ["output.mp4"]))
         ["notes.txt"].
Proof.
  assert (Hne : [sampleScene 2 "aurora"] <> []) by discriminate.
  assert (Hd : forall n, deleteFile_ok env_ok n = true) by (intros; reflexivity).
  split; [exact env_ok_frames|split; [exact aurora_resolves|split; [exact Hne|split; [exact Hd|]]]].
  exact (synthesizeVideo_storage ex_sin ex_cos ex_pi ex_measure ex_gradients env_ok _
           (mkWorld ["notes.txt"] [] (freshCtx CANVAS_WIDTH CANVAS_HEIGHT))
           env_ok_frames aurora_resolves Hne Hd).
Defined.

Lemma export_progress_monotone_witness :
  framesEnvOk env_ok /\
  Forall (fun s => findGradient ex_gradients (gradientId s) <> None) [sampleScene 2 "aurora"] /\
  [sampleScene 2 "aurora"] <> [] /\
  Forall duration_in_bounds [sampleScene 2 "aurora"] /\
  exists L,
    filter isStage (trace (snd (synthesizeVideo ex_sin ex_cos ex_pi ex_measure ex_gradients
                                  env_ok [sampleScene 2 "aurora"] emptyWorld))) =
    filter isStage (trace emptyWorld) ++ L /\
    StronglySorted Qle ((5 # 100) :: map stageUiProgress L) /\
    Forall (fun p => 5 # 100 <= p <= 1) (map stageUiProgress L).
Proof.
  assert (Hne : [sampleScene 2 "aurora"] <> []) by discriminate.
  assert (Hb : Forall duration_in_bounds [sampleScene 2 "aurora"]).
  { constructor; [split; apply Qle_bool_imp_le; reflexivity|constructor]. }
  split; [exact env_ok_frames|split; [exact aurora_resolves|split; [exact Hne|split; [exact Hb|]]]].
  exact (export_progress_monotone ex_sin ex_cos ex_pi ex_measure ex_gradients env_ok _ emptyWorld
           env_ok_frames aurora_resolves Hne Hb).
Defined.

Lemma addScene_appends_witness :
  (List.length (app_scenes (mkApp [sampleScene 2 "aurora"] 0%nat 1%nat)) < MAX_SCENES)%nat /\
  ex_gradients <> [] /\
  app_scenes (mkApp [sampleScene 2 "aurora"] 0%nat 1%nat) = [] ++ [sampleScene 2 "aurora"] /\
  exists g,
    addScene ex_gradients (mkApp [sampleScene 2 "aurora"] 0%nat 1%nat) =
    mkApp [sampleScene 2 "aurora";
           mkScene 1 "New Narrative Moment"
             "Swap in your copy and colors, then keep sculpting the flow."
             (clamp 2 MIN_DURATION MAX_DURATION) (gid g) "#f8fafc" "#facc15" zoom]
          1%nat 2%nat.
Proof.
  assert (H1 : (List.length (app_scenes (mkApp [sampleScene 2 "aurora"] 0%nat 1%nat)) < MAX_SCENES)%nat)
    by (unfold MAX_SCENES; simpl; lia).
  assert (H2 : ex_gradients <> []) by discriminate.
  assert (H3 : app_scenes (mkApp [sampleScene 2 "aurora"] 0%nat 1%nat) = [] ++ [sampleScene 2 "aurora"])
    by reflexivity.
  split; [exact H1|split; [exact H2|split; [exact H3|]]].
  destruct (addScene_appends ex_gradients _ [] (sampleScene 2 "aurora") H1 H2 H3) as (g & E & _).
  exists g. exact E.
Defined.

Lemma removeScene_spec_witness :
  (2 <= List.length (app_scenes (mkApp [sampleScene 2 "aurora";
                                        mkScene 1 "Outro" "Bye" 3 "aurora" "#f8fafc" "#facc15" zoom]
                                       0%nat 2%nat)))%nat /\
  NoDup (map id (app_scenes (mkApp [sampleScene 2 "aurora";
                                    mkScene 1 "Outro" "Bye" 3 "aurora" "#f8fafc" "#facc15" zoom]
                                   0%nat 2%nat))) /\
  exists s,
    hd_error (app_scenes (removeScene (mkApp [sampleScene 2 "aurora";
                                              mkScene 1 "Outro" "Bye" 3 "aurora" "#f8fafc" "#facc15" zoom]
                                             0%nat 2%nat) 0%nat)) = Some s /\
    selectedSceneId (removeScene (mkApp [sampleScene 2 "aurora";
                                         mkScene 1 "Outro" "Bye" 3 "aurora" "#f8fafc" "#facc15" zoom]
                                        0%nat 2%nat) 0%nat) = id s.
Proof.
  assert (H1 : (2 <= List.length (app_scenes (mkApp [sampleScene 2 "aurora";
                                        mkScene 1 "Outro" "Bye" 3 "aurora" "#f8fafc" "#facc15" zoom]
                                       0%nat 2%nat)))%nat) by (simpl; lia).
  assert (H2 : NoDup (map id (app_scenes (mkApp [sampleScene 2 "aurora";
                                    mkScene 1 "Outro" "Bye" 3 "aurora" "#f8fafc" "#facc15" zoom]
                                   0%nat 2%nat)))).
  { simpl. apply NoDup_cons; [intros [E|[]]; discriminate E|].
    apply NoDup_cons; [intros []|apply NoDup_nil]. }
  split; [exact H1|split; [exact H2|]].
  exact (proj2 (proj2 (proj2 (removeScene_spec _ 0%nat H1 H2))) eq_refl).
Defined.

Lemma editScene_spec_witness :
  NoDup (map id (app_scenes
    (mkApp [sampleScene 2 "aurora";
            mkScene 1 "Middle" "Beat" 3 "aurora" "#e2e8f0" "#38bdf8" slide;
            mkScene 2 "Outro" "Bye" 4 "aurora" "#fff7ed" "#fb7185" drift] 1%nat 3%nat))) /\
  app_scenes
    (mkApp [sampleScene 2 "aurora";
            mkScene 1 "Middle" "Beat" 3 "aurora" "#e2e8f0" "#38bdf8" slide;
            mkScene 2 "Outro" "Bye" 4 "aurora" "#fff7ed" "#fb7185" drift] 1%nat 3%nat) =
    [sampleScene 2 "aurora"] ++
    mkScene 1 "Middle" "Beat" 3 "aurora" "#e2e8f0" "#38bdf8" slide ::
    [mkScene 2 "Outro" "Bye" 4 "aurora" "#fff7ed" "#fb7185" drift] /\
  activeScene
    (mkApp [sampleScene 2 "aurora";
            mkScene 1 "Middle" "Beat" 3 "aurora" "#e2e8f0" "#38bdf8" slide;
            mkScene 2 "Outro" "Bye" 4 "aurora" "#fff7ed" "#fb7185" drift] 1%nat 3%nat) =
    Some (mkScene 1 "Middle" "Beat" 3 "aurora" "#e2e8f0" "#38bdf8" slide) /\
  step ex_gradients
    (mkApp [sampleScene 2 "aurora";
            mkScene 1 "Middle" "Beat" 3 "aurora" "#e2e8f0" "#38bdf8" slide;
            mkScene 2 "Outro" "Bye" 4 "aurora" "#fff7ed" "#fb7185" drift] 1%nat 3%nat)
    (EditScene (SetTitle "Turn")) =
    mkApp ([sampleScene 2 "aurora"] ++
           applyEdit (mkScene 1 "Middle" "Beat" 3 "aurora" "#e2e8f0" "#38bdf8" slide)
             (SetTitle "Turn") ::
           [mkScene 2 "Outro" "Bye" 4 "aurora" "#fff7ed" "#fb7185" drift]) 1%nat 3%nat /\
  activeScene
    (step ex_gradients
       (mkApp [sampleScene 2 "aurora";
               mkScene 1 "Middle" "Beat" 3 "aurora" "#e2e8f0" "#38bdf8" slide;
               mkScene 2 "Outro" "Bye" 4 "aurora" "#fff7ed" "#fb7185" drift] 1%nat 3%nat)
       (EditScene (SetTitle "Turn"))) =
    Some (applyEdit (mkScene 1 "Middle" "Beat" 3 "aurora" "#e2e8f0" "#38bdf8" slide)
            (SetTitle "Turn")).
Proof.
  assert (H1 : NoDup (map id (app_scenes
    (mkApp [sampleScene 2 "aurora";
            mkScene 1 "Middle" "Beat" 3 "aurora" "#e2e8f0" "#38bdf8" slide;
            mkScene 2 "Outro" "Bye" 4 "aurora" "#fff7ed" "#fb7185" drift] 1%nat 3%nat)))).
  { simpl. apply NoDup_cons; [intros [E|[E|[]]]; discriminate E|].
    apply NoDup_cons; [intros [E|[]]; discriminate E|].
    apply NoDup_cons; [intros []|apply NoDup_nil]. }
  assert (H2 : app_scenes
    (mkApp [sampleScene 2 "aurora";
            mkScene 1 "Middle" "Beat" 3 "aurora" "#e2e8f0" "#38bdf8" slide;
            mkScene 2 "Outro" "Bye" 4 "aurora" "#fff7ed" "#fb7185" drift] 1%nat 3%nat) =
    [sampleScene 2 "aurora"] ++
    mkScene 1 "Middle" "Beat" 3 "aurora" "#e2e8f0" "#38bdf8" slide ::
    [mkScene 2 "Outro" "Bye" 4 "aurora" "#fff7ed" "#fb7185" drift]) by reflexivity.
  assert (H3 : activeScene
    (mkApp [sampleScene 2 "aurora";
            mkScene 1 "Middle" "Beat" 3 "aurora" "#e2e8f0" "#38bdf8" slide;
            mkScene 2 "Outro" "Bye" 4 "aurora" "#fff7ed" "#fb7185" drift] 1%nat 3%nat) =
    Some (mkScene 1 "Middle" "Beat" 3 "aurora" "#e2e8f0" "#38bdf8" slide)) by reflexivity.
  split; [exact H1|split; [exact H2|split; [exact H3|]]].
  exact (editScene_spec ex_gradients _ (SetTitle "Turn") _ _ _ H1 H2 H3).
Defined.

Lemma synthesizeVideo_early_failures_witness :
  getFFmpeg_ok (mkEnv true false true (fun _ => true) true true (fun _ => true)) = true /\
  context2d_ok (mkEnv true false true (fun _ => true) true true (fun _ => true)) = false /\
  fst (synthesizeVideo ex_sin ex_cos ex_pi ex_measure ex_gradients
         (mkEnv true false true (fun _ => true) true true (fun _ => true))
         [sampleScene 2 "aurora"] emptyWorld) =
  Throw "Unable to access 2D context for rendering.".
Proof.
  split; [reflexivity|split; [reflexivity|]].
  exact (proj1 (proj1 (proj2 (synthesizeVideo_early_failures ex_sin ex_cos ex_pi ex_measure
                                 ex_gradients (mkEnv true false true (fun _ => true) true true
                                                 (fun _ => true))
                                 (sampleScene 2 "aurora") [] emptyWorld)) eq_refl eq_refl)).
Defined.

Lemma timelineSpans_bounds_witness :
  Forall (fun s => 0 <= duration s) [sampleScene 2 "aurora"; sampleScene 6 "aurora"] /\
  Forall (fun k => (1 <= k <= 12)%Z) (timelineSpans [sampleScene 2 "aurora"; sampleScene 6 "aurora"]).
Proof.
  assert (H : Forall (fun s => 0 <= duration s) [sampleScene 2 "aurora"; sampleScene 6 "aurora"]).
  { repeat constructor; apply Qle_bool_imp_le; reflexivity. }
  exact (conj H (timelineSpans_bounds _ H)).
Defined.

Lemma renderPreviewFrame_edges_witness :
  Forall (fun s => 0 <= duration s) [sampleScene 2 "aurora"] /\
  ~ totalDurationForScenes [sampleScene 2 "aurora"] == 0 /\
  -1 < 0 /\
  renderPreviewFrame ex_sin ex_cos ex_pi ex_measure ex_gradients
    (freshCtx CANVAS_WIDTH CANVAS_HEIGHT) [sampleScene 2 "aurora"] (-1) =
  renderSceneFrame ex_sin ex_cos ex_pi ex_measure ex_gradients
    (freshCtx CANVAS_WIDTH CANVAS_HEIGHT) (sampleScene 2 "aurora") 1.
Proof.
  assert (H1 : Forall (fun s => 0 <= duration s) [sampleScene 2 "aurora"]).
  { repeat constructor; apply Qle_bool_imp_le; reflexivity. }
  assert (H2 : ~ totalDurationForScenes [sampleScene 2 "aurora"] == 0).
  { vm_compute. intros E. discriminate E. }
  assert (H3 : -1 < 0) by reflexivity.
  split; [exact H1|split; [exact H2|split; [exact H3|]]].
  exact (proj2 (renderPreviewFrame_edges ex_sin ex_cos ex_pi ex_measure ex_gradients
                  (freshCtx CANVAS_WIDTH CANVAS_HEIGHT) [sampleScene 2 "aurora"] (-1))
           H1 H2 H3 (sampleScene 2 "aurora")).
Defined.

Lemma setDuration_clamp_witness :
  MAX_DURATION < 10 /\ duration (applyEdit (sampleScene 2 "aurora") (SetDuration 10)) == MAX_DURATION.
Proof.
  assert (H : MAX_DURATION < 10) by reflexivity.
  exact (conj H (proj1 (proj2 (proj2 (setDuration_clamp (sampleScene 2 "aurora") 10))) H)).
Defined.

(** ** Divergences *)

(** [C1] Two scenes of duration 2.02 (within the duration bounds) give 48
    frames each, 96 in all, while [totalFrames = round(4.04 * 24) = 97]: the
    export succeeds and its last [frames]-stage report is 96/97, not 1.  Two
    scenes of duration 2.03 give 49 frames each against [totalFrames = 97],
    and the last report is 98/97, above 1. *)
Theorem frames_progress_last_not_one :
  Forall duration_in_bounds [sampleScene (202 # 100) "aurora"; sampleScene (202 # 100) "aurora"] /\
  framesForScene (sampleScene (202 # 100) "aurora") = 48%Z /\
  totalFramesFor [sampleScene (202 # 100) "aurora"; sampleScene (202 # 100) "aurora"] = 97%Z /\
  fst (synthesizeVideo ex_sin ex_cos ex_pi ex_measure ex_gradients env_ok
         [sampleScene (202 # 100) "aurora"; sampleScene (202 # 100) "aurora"] emptyWorld) =
    Ok (mkBlob "video/mp4") /\
  last (framesStage (trace (snd (synthesizeVideo ex_sin ex_cos ex_pi ex_measure ex_gradients
         env_ok [sampleScene (202 # 100) "aurora"; sampleScene (202 # 100) "aurora"]
         emptyWorld)))) 0 == 96 # 97 /\
  ~ (last (framesStage (trace (snd (synthesizeVideo ex_sin ex_cos ex_pi ex_measure ex_gradients
         env_ok [sampleScene (202 # 100) "aurora"; sampleScene (202 # 100) "aurora"]
         emptyWorld)))) 0 == 1) /\
  last (framesStage (trace (snd (synthesizeVideo ex_sin ex_cos ex_pi ex_measure ex_gradients
         env_ok [sampleScene (203 # 100) "aurora"; sampleScene (203 # 100) "aurora"]
         emptyWorld)))) 0 == 98 # 97.
Proof.
  split; [constructor; [|constructor; [|constructor]];
          split; apply Qle_bool_imp_le; reflexivity|].
  split; [reflexivity|split; [reflexivity|split; [vm_compute; reflexivity|split]]].
  - vm_compute. reflexivity.
  - split.
    + vm_compute. intros H. discriminate H.
    + vm_compute. reflexivity.
Qed.

(** [C5] The frame loop runs outside the [try ... finally] that cleans up:
    when a render fails during the frame loop (here the second scene's
    gradient is missing, in an environment where every deletion would
    succeed), the attempt ends in the error state, no deletion is attempted,
    and the 48 frame files of the first scene stay in the encoder's storage.
    When instead the execute step fails, every frame file is deleted. *)
Theorem cleanup_skipped_on_frame_failure :
  (forall n, deleteFile_ok env_ok n = true) /\
  (exists msg, fst (handleRender ex_sin ex_cos ex_pi ex_measure ex_gradients env_ok
                      [sampleScene 2 "aurora"; sampleScene 2 "missing"] emptyWorld) =
               ErrorState msg) /\
  storage (snd (synthesizeVideo ex_sin ex_cos ex_pi ex_measure ex_gradients env_ok
                  [sampleScene 2 "aurora"; sampleScene 2 "missing"] emptyWorld)) =
    map frameName (seq 0 48) /\
  filter isDelete (trace (snd (synthesizeVideo ex_sin ex_cos ex_pi ex_measure ex_gradients env_ok
                                 [sampleScene 2 "aurora"; sampleScene 2 "missing"] emptyWorld))) =
    [] /\
  storage (snd (synthesizeVideo ex_sin ex_cos ex_pi ex_measure ex_gradients env_exec_fail
                  [sampleScene 2 "aurora"] emptyWorld)) = [].
Proof.
  split; [intros; reflexivity|].
  split; [eexists; vm_compute; reflexivity|].
  split; [vm_compute; reflexivity|].
  split; vm_compute; reflexivity.
Qed.
